(** * Evolutionary engine of PROJET_DEV_LOG ([algen.py]) in Rocq

    Shallow embedding of the latent-vector operators of the two copies of
    [algen.py] in the repository: [projet/idkit/algen.py] (module [Idkit])
    and [projet/src/algen.py] (module [Src]).

    Data model.
    - A latent vector (a rank-2 torch tensor [channels, spatial]) is the
      list of its components in row-major order, [vec := list Q]: every
      finite float is a rational; float rounding is idealised away.
    - A population (a rank-3 tensor [n, channels, spatial]) is a list of
      vectors, [pop := list vec].
    - Python exceptions are the [Err] case of the [result] monad.
    - The global torch random generator is an explicit [gen]: two streams
      of draws (uniform for [torch.rand], Gaussian for [torch.randn]) read
      at a shared position counter, advanced by every call. *)

From Stdlib Require Import String QArith Qpower Qreals Reals Lra Lia List Bool.
Import ListNotations.

Local Open Scope Q_scope.

(** ** Python exceptions and the result monad *)

Inductive pyexc :=
| ValueError (msg : string)
| TypeError (msg : string)
| RuntimeError (msg : string).

Inductive result (A : Type) :=
| Ok (a : A)
| Err (e : pyexc).
Arguments Ok {A} a.
Arguments Err {A} e.

Definition bind {A B} (m : result A) (k : A -> result B) : result B :=
  match m with
  | Ok a => k a
  | Err e => Err e
  end.

Notation "x <- m ;; k" := (bind m (fun x => k))
  (at level 61, m at next level, right associativity).
Notation "' p <- m ;; k" := (bind m (fun x => match x with p => k end))
  (at level 61, p pattern, m at next level, right associativity).

Fixpoint mapM {A B} (f : A -> result B) (l : list A) : result (list B) :=
  match l with
  | [] => Ok []
  | x :: l' => y <- f x ;; ys <- mapM f l' ;; Ok (y :: ys)
  end.

(** ** Tensors *)

Definition vec := list Q.
Definition pop := list vec.

Definition Qltb (x y : Q) : bool := negb (Qle_bool y x).

(** [torch.dist(a, b, p=2)] is the square root of this sum; the code only
    compares such distances ([argmin], [argmax]), and the square root is
    strictly increasing, so the model keeps the radicand. The real
    Euclidean distance [euclid] below is used in statements. *)
Definition dist_sq (a b : vec) : Q :=
  fold_right Qplus 0 (map (fun '(x, y) => (x - y) * (x - y)) (combine a b)).

Definition euclid (a b : vec) : R := sqrt (Q2R (dist_sq a b)).

(** [torch.equal(a, b)]: same size and same values. *)
Fixpoint torch_equal (a b : vec) : bool :=
  match a, b with
  | [], [] => true
  | x :: a', y :: b' => Qeq_bool x y && torch_equal a' b'
  | _, _ => false
  end.

(** [torch.where(cond, a, b)] *)
Definition torch_where (c : list bool) (a b : vec) : vec :=
  map (fun p : bool * (Q * Q) => let '(ci, (x, y)) := p in if ci then x else y)
    (combine c (combine a b)).

(** [t[mask]] for a boolean mask over the first dimension. *)
Definition mask_select {A} (l : list A) (m : list bool) : list A :=
  map fst (filter snd (combine l m)).

(** [t[i] = v] for an index in range. *)
Fixpoint set_nth {A} (i : nat) (v : A) (l : list A) : list A :=
  match l, i with
  | [], _ => []
  | _ :: l', O => v :: l'
  | x :: l', S i' => x :: set_nth i' v l'
  end.

(** [torch.zeros(t.size())] for a population. *)
Definition zeros_like (p : pop) : pop := map (fun v => repeat 0 (length v)) p.

Definition argmin_empty_msg : string :=
  "argmin(): Expected reduction dim to be specified for input.numel() == 0."%string.
Definition argmax_empty_msg : string :=
  "argmax(): Expected reduction dim to be specified for input.numel() == 0."%string.

(** Left-to-right scan keeping the first strict minimum. *)
Fixpoint scan_min (bi : nat) (b : Q) (i : nat) (l : list Q) : nat :=
  match l with
  | [] => bi
  | x :: l' => if Qltb x b then scan_min i x (S i) l' else scan_min bi b (S i) l'
  end.

(** [torch.argmin] of a 1-D tensor: index of the first minimal value;
    an empty tensor raises. *)
Definition argmin (l : list Q) : result nat :=
  match l with
  | [] => Err (RuntimeError argmin_empty_msg)
  | x :: l' => Ok (scan_min 0 x 1 l')
  end.

(** [torch.argmax]: index of the first maximal value, i.e. of the first
    minimal value of the negated tensor. *)
Definition argmax (l : list Q) : result nat :=
  match l with
  | [] => Err (RuntimeError argmax_empty_msg)
  | x :: l' => Ok (scan_min 0 (- x) 1 (map Qopp l'))
  end.

(** ** Random generator *)

Record gen := mkGen {
  unif : nat -> Q;   (** draws of [torch.rand], in [0, 1) *)
  gauss : nat -> Q;  (** draws of [torch.randn] *)
  ctr : nat          (** position of the generator *)
}.

Definition advance (g : gen) (n : nat) : gen :=
  mkGen (unif g) (gauss g) (ctr g + n).

(** [torch.rand(size)] with [n] components. *)
Definition rand (g : gen) (n : nat) : vec * gen :=
  (map (unif g) (seq (ctr g) n), advance g n).

(** [torch.randn(size)] with [n] components. *)
Definition randn (g : gen) (n : nat) : vec * gen :=
  (map (gauss g) (seq (ctr g) n), advance g n).

(** ** [chose_closest_tensor] (both copies) *)

Definition chose_closest_tensor (input_tensor : vec) (other_tensors : pop) : result vec :=
  let dist_list := map (dist_sq input_tensor) other_tensors in
  k <- argmin dist_list ;;
  Ok (nth k other_tensors []).

(** ** Tensors held by Python references *)

(** A torch tensor as [mutate_img] dispatches on it: rank 2, rank 3, or
    any other rank (whose values play no role). *)
Inductive tensor :=
| T2 (v : vec)
| T3 (p : pop)
| TRank (d : nat).

Inductive pyobj :=
| PyTensor (t : tensor)
| PyOther.

(** Python objects reachable by reference: the caller's tensor is
    [nth l h]; a fresh tensor is appended to the heap. *)
Definition heap := list pyobj.

(** [a + b] elementwise. *)
Definition vadd (a b : vec) : vec :=
  map (fun p : Q * Q => let '(x, y) := p in x + y) (combine a b).

(** [t.mean()] *)
Definition mean (v : vec) : Q :=
  fold_right Qplus 0 v / inject_Z (Z.of_nat (length v)).

Definition count_true (m : list bool) : nat := length (filter (fun b => b) m).

(** [t[m] = vals]: the selected positions receive [vals] in order. *)
Fixpoint masked_assign (m : list bool) (vals : vec) (v : vec) : vec :=
  match m, v with
  | b :: m', x :: v' =>
      if b then
        match vals with
        | y :: vals' => y :: masked_assign m' vals' v'
        | [] => x :: masked_assign m' [] v'
        end
      else x :: masked_assign m' vals v'
  | _, _ => v
  end.

Definition lt_mask (u : vec) (rate : Q) : list bool := map (fun x => Qltb x rate) u.

Definition dim_msg : string := "Wrong Tensor dimension, expected 2 or 3"%string.
Definition type_msg : string := "Input should be of type or torch.Tensor"%string.

(** ** [projet/idkit/algen.py] *)
Module Idkit.

(** [is_not_this_tensor]: True for the members not equal in value to
    [tensor]. *)
Definition is_not_this_tensor (tensor : vec) (tensor_encoded : pop) : list bool :=
  map (fun t => negb (torch_equal tensor t)) tensor_encoded.

(** The [for i, tensor in enumerate(tensor_encoded)] loop of
    [crossing_over], writing into [global_tensor]. *)
Fixpoint crossing_loop (tensor_encoded : pop) (crossing_rate : Q) (i : nat)
    (rest : pop) (global_tensor : pop) (g : gen) : result (pop * gen) :=
  match rest with
  | [] => Ok (global_tensor, g)
  | tensor :: rest' =>
      let other_tensor :=
        mask_select tensor_encoded (is_not_this_tensor tensor tensor_encoded) in
      chosen_tensor <- chose_closest_tensor tensor other_tensor ;;
      let '(u, g1) := rand g (length chosen_tensor) in
      let is_crossing := lt_mask u crossing_rate in
      let crossed_tensor := torch_where is_crossing chosen_tensor tensor in
      crossing_loop tensor_encoded crossing_rate (S i) rest'
        (set_nth i crossed_tensor global_tensor) g1
  end.

Definition crossing_over (g : gen) (tensor_encoded : pop) (crossing_rate : Q)
    : result (pop * gen) :=
  crossing_loop tensor_encoded crossing_rate 0 tensor_encoded
    (zeros_like tensor_encoded) g.

(** [torch.dist(tensor, input_tensor)]: [tensor] is broadcast along the
    first dimension of [input_tensor]. *)
Definition bcast_dist_sq (tensor : vec) (input_tensor : pop) : Q :=
  dist_sq (concat (repeat tensor (length input_tensor))) (concat input_tensor).

Definition remove_worst_tensor (input_tensor : pop) : result pop :=
  let dist_tensor := map (fun tensor => bcast_dist_sq tensor input_tensor) input_tensor in
  is_kept <- mapM (fun i => k <- argmax dist_tensor ;; Ok (negb (Nat.eqb i k)))
               (seq 0 (length input_tensor)) ;;
  Ok (mask_select input_tensor is_kept).

Definition scale_msg (scale : string) : string :=
  ("Wrong value for the scale parameter. Expected 'partial' or 'total' got "
   ++ scale ++ " instead")%string.
Definition mode_msg (mode : string) : string :=
  ("Wrong value for the mode parameter. Expected 'add' or 'reconstruct' got "
   ++ mode ++ " instead")%string.

Section Mutate.
(** [torch.std] (unbiased standard deviation, irrational in general): any
    function. *)
Variable tensor_std : vec -> Q.

(** Body of the rank-3 loop of [mutate_img] for one member. *)
Definition mutate_member (g : gen) (tensor : vec) (mutation_rate : Q)
    (mode scale : string) : result (vec * gen) :=
  let img_mut := tensor in
  let n := length tensor in
  if String.eqb mode "add" then
    if String.eqb scale "partial" then
      let '(mut_proba_tensor, g1) := rand g n in
      let '(z, g2) := randn g1 n in
      let noise_tensor := vadd z img_mut in
      Ok (torch_where (lt_mask mut_proba_tensor mutation_rate) noise_tensor img_mut, g2)
    else if String.eqb scale "total" then
      let '(z, g1) := randn g n in
      Ok (vadd img_mut z, g1)
    else Err (ValueError (scale_msg scale))
  else if String.eqb mode "reconstruct" then
    let mu := mean tensor in
    let std := tensor_std tensor in
    if String.eqb scale "partial" then
      let '(mut_proba_tensor, g1) := rand g n in
      let '(z, g2) := randn g1 n in
      let recons_tensor := map (fun zi => mu + zi * std) z in
      Ok (torch_where (lt_mask mut_proba_tensor mutation_rate) recons_tensor img_mut, g2)
    else if String.eqb scale "total" then
      let '(z, g1) := randn g n in
      Ok (map (fun zi => mu + zi * std) z, g1)
    else Ok (img_mut, g)
  else Err (ValueError (mode_msg mode)).

Fixpoint mutate_loop (g : gen) (mutation_rate : Q) (mode scale : string)
    (i : nat) (rest : pop) (global_tensor : pop) : result (pop * gen) :=
  match rest with
  | [] => Ok (global_tensor, g)
  | tensor :: rest' =>
      '(img_mut, g1) <- mutate_member g tensor mutation_rate mode scale ;;
      mutate_loop g1 mutation_rate mode scale (S i) rest' (set_nth i img_mut global_tensor)
  end.

(** [mutate_img(tensor_encoded, mutation_rate, mode, scale)] where
    [tensor_encoded] is the reference [l] into [h]. Returns the reference
    of the result, the heap after the call, and the generator. *)
Definition mutate_img (h : heap) (l : nat) (g : gen) (mutation_rate : Q)
    (mode scale : string) : result (nat * heap * gen) :=
  match nth_error h l with
  | Some (PyTensor (T2 v)) =>
      (* img_mut = tensor_encoded: the caller's object itself *)
      let n := length v in
      if String.eqb mode "add" then
        if String.eqb scale "partial" then
          let '(mut_proba_tensor, g1) := rand g n in
          let '(noise_tensor, g2) := randn g1 n in
          let m := lt_mask mut_proba_tensor mutation_rate in
          Ok (l, set_nth l (PyTensor (T2 (torch_where m (vadd v noise_tensor) v))) h, g2)
        else if String.eqb scale "total" then
          let '(z, g1) := randn g n in
          Ok (l, set_nth l (PyTensor (T2 (vadd v z))) h, g1)
        else Err (ValueError (scale_msg scale))
      else if String.eqb mode "reconstruct" then
        let mu := mean v in
        let std := tensor_std v in
        if String.eqb scale "partial" then
          let '(mut_proba_tensor, g1) := rand g n in
          let m := lt_mask mut_proba_tensor mutation_rate in
          let selected_size := count_true m in
          let '(z, g2) := randn g1 selected_size in
          Ok (l, set_nth l (PyTensor (T2 (masked_assign m (map (fun zi => mu + zi * std) z) v))) h, g2)
        else if String.eqb scale "total" then
          let '(z, g1) := randn g n in
          Ok (length h, h ++ [PyTensor (T2 (map (fun zi => mu + zi * std) z))], g1)
        else Err (ValueError (scale_msg scale))
      else Err (ValueError (mode_msg mode))
  | Some (PyTensor (T3 p)) =>
      '(global_tensor, g') <- mutate_loop g mutation_rate mode scale 0 p (zeros_like p) ;;
      Ok (length h, h ++ [PyTensor (T3 global_tensor)], g')
  | Some (PyTensor (TRank _)) => Err (TypeError dim_msg)
  | _ => Err (TypeError type_msg)
  end.

End Mutate.

Section Pipeline.
(** The external codec: [flatten_img] encodes each image with the trained
    autoencoder; [deflatten_img] decodes each member. *)
Variable image : Type.
Variable encode_img : string -> vec.
Variable decode_img : vec -> image.

Definition flatten_img (img_path : list string) : pop := map encode_img img_path.

Definition deflatten_img (flat_tensor : pop) : list image := map decode_img flat_tensor.

(** [create_new_images]: the result lists the saved images, the [i]-th
    one saved as [image{i}.png]. *)
Definition create_new_images (g : gen) (img_path : list string)
    : result (list (nat * image) * gen) :=
  let img_encoded_tensor := flatten_img img_path in
  '(crossed_img, g1) <- crossing_over g img_encoded_tensor (1 # 2) ;;
  '(more_crossing, g2) <- crossing_over g1 img_encoded_tensor (1 # 2) ;;
  let new_tensors := crossed_img ++ more_crossing in
  good_5_tensors <- remove_worst_tensor new_tensors ;;
  let new_images := deflatten_img good_5_tensors in
  Ok (combine (seq 0 (length new_images)) new_images, g2).

End Pipeline.

End Idkit.

(** ** [projet/src/algen.py] *)
Module Src.

Fixpoint crossing_loop (tensor_encoded : pop) (crossing_rate : Q) (i : nat)
    (rest : pop) (global_tensor : pop) (g : gen) : result (pop * gen) :=
  match rest with
  | [] => Ok (global_tensor, g)
  | tensor :: rest' =>
      let '(crossing_tensor, g1) := rand g (length tensor) in
      let other_ind := filter (fun k => negb (Nat.eqb k i)) (seq 0 (length tensor_encoded)) in
      chosen_tensor <- chose_closest_tensor tensor (map (fun k => nth k tensor_encoded []) other_ind) ;;
      let new_tensor := torch_where (lt_mask crossing_tensor crossing_rate) chosen_tensor tensor in
      crossing_loop tensor_encoded crossing_rate (S i) rest'
        (set_nth i new_tensor global_tensor) g1
  end.

Definition crossing_over (g : gen) (tensor_encoded : pop) (crossing_rate : Q)
    : result (pop * gen) :=
  crossing_loop tensor_encoded crossing_rate 0 tensor_encoded
    (zeros_like tensor_encoded) g.

Definition scale_msg (scale : string) : string :=
  ("Wrong value for the scale parameter. Expected 'partial' or 'total' got "
   ++ scale ++ " instead")%string.
Definition mode_msg (mode : string) : string :=
  ("Wrong value for the modif parameter. Expected 'add' or 'reconstruct' got "
   ++ mode ++ " instead")%string.

Section WithStd.
(** [torch.std] (unbiased standard deviation, irrational in general): any
    function. *)
Variable tensor_std : vec -> Q.

(** [input_tensor.std(dim=(1, 2))] is the standard deviation of each
    member. *)
Definition remove_worst_tensor (input_tensor : pop) : result pop :=
  let std_tensor := map tensor_std input_tensor in
  worst_ind <- argmax std_tensor ;;
  let worst_tensor := nth worst_ind input_tensor [] in
  select_ind <- mapM (fun i => k <- argmax std_tensor ;; Ok (negb (Nat.eqb i k)))
                  (seq 0 (length input_tensor)) ;;
  Ok (mask_select input_tensor select_ind).

Definition mutate_member (g : gen) (tensor : vec) (mutation_rate noise : Q)
    (mode scale : string) : result (vec * gen) :=
  let img_mut := tensor in
  let n := length tensor in
  if String.eqb mode "add" then
    if String.eqb scale "partial" then
      let '(mut_proba_tensor, g1) := rand g n in
      let '(z, g2) := randn g1 n in
      let noise_tensor := vadd (map (Qmult noise) z) img_mut in
      Ok (torch_where (lt_mask mut_proba_tensor mutation_rate) noise_tensor img_mut, g2)
    else if String.eqb scale "total" then
      let '(z, g1) := randn g n in
      Ok (vadd img_mut (map (Qmult noise) z), g1)
    else Err (ValueError (scale_msg scale))
  else if String.eqb mode "reconstruct" then
    let mu := mean tensor in
    let std := tensor_std tensor in
    if String.eqb scale "partial" then
      let '(mut_proba_tensor, g1) := rand g n in
      let '(z, g2) := randn g1 n in
      let recons_tensor := map (fun zi => mu + zi * std) z in
      Ok (torch_where (lt_mask mut_proba_tensor mutation_rate) recons_tensor img_mut, g2)
    else if String.eqb scale "total" then
      let '(z, g1) := randn g n in
      Ok (map (fun zi => mu + zi * std) z, g1)
    else Ok (img_mut, g)
  else Err (ValueError (mode_msg mode)).

Fixpoint mutate_loop (g : gen) (mutation_rate noise : Q) (mode scale : string)
    (i : nat) (rest : pop) (global_tensor : pop) : result (pop * gen) :=
  match rest with
  | [] => Ok (global_tensor, g)
  | tensor :: rest' =>
      '(img_mut, g1) <- mutate_member g tensor mutation_rate noise mode scale ;;
      mutate_loop g1 mutation_rate noise mode scale (S i) rest' (set_nth i img_mut global_tensor)
  end.

(** [mutate_img(tensor_encoded, mutation_rate, noise, mode, scale)] *)
Definition mutate_img (h : heap) (l : nat) (g : gen) (mutation_rate noise : Q)
    (mode scale : string) : result (nat * heap * gen) :=
  match nth_error h l with
  | Some (PyTensor (T2 v)) =>
      (* img_mut = tensor_encoded: the caller's object itself *)
      let n := length v in
      if String.eqb mode "add" then
        if String.eqb scale "partial" then
          let '(mut_proba_tensor, g1) := rand g n in
          let '(z, g2) := randn g1 n in
          let noise_tensor := map (Qmult noise) z in
          let m := lt_mask mut_proba_tensor mutation_rate in
          Ok (l, set_nth l (PyTensor (T2 (torch_where m (vadd v noise_tensor) v))) h, g2)
        else if String.eqb scale "total" then
          let '(z, g1) := randn g n in
          Ok (l, set_nth l (PyTensor (T2 (vadd v (map (Qmult noise) z)))) h, g1)
        else Err (ValueError (scale_msg scale))
      else if String.eqb mode "reconstruct" then
        let mu := mean v in
        let std := tensor_std v in
        if String.eqb scale "partial" then
          let '(mut_proba_tensor, g1) := rand g n in
          let m := lt_mask mut_proba_tensor mutation_rate in
          let selected_size := count_true m in
          let '(z, g2) := randn g1 selected_size in
          Ok (l, set_nth l (PyTensor (T2 (masked_assign m (map (fun zi => mu + zi * std) z) v))) h, g2)
        else if String.eqb scale "total" then
          let '(z, g1) := randn g n in
          Ok (length h, h ++ [PyTensor (T2 (map (fun zi => mu + zi * std) z))], g1)
        else Err (ValueError (scale_msg scale))
      else Err (ValueError (mode_msg mode))
  | Some (PyTensor (T3 p)) =>
      '(global_tensor, g') <- mutate_loop g mutation_rate noise mode scale 0 p (zeros_like p) ;;
      Ok (length h, h ++ [PyTensor (T3 global_tensor)], g')
  | Some (PyTensor (TRank _)) => Err (TypeError dim_msg)
  | _ => Err (TypeError type_msg)
  end.

Section Pipeline.
Variable image : Type.
Variable encode_img : string -> vec.
Variable decode_img : vec -> image.

Definition flatten_img (img_path : list string) : pop := map encode_img img_path.

Definition deflatten_img (flat_tensor : pop) : list image := map decode_img flat_tensor.

Definition create_new_images (g : gen) (img_path : list string)
    : result (list (nat * image) * gen) :=
  let img_encoded_tensor := flatten_img img_path in
  '(crossed_img, g1) <- crossing_over g img_encoded_tensor (2 # 5) ;;
  '(more_crossing, g2) <- crossing_over g1 img_encoded_tensor (2 # 5) ;;
  let new_tensors := crossed_img ++ more_crossing in
  good_5_tensors <- remove_worst_tensor new_tensors ;;
  let new_images := deflatten_img good_5_tensors in
  Ok (combine (seq 0 (length new_images)) new_images, g2).

End Pipeline.
End WithStd.

End Src.

(** ** Specification predicates *)

(** [k] is the first index of a minimal element of [l]. *)
Definition first_min (l : list Q) (k : nat) : Prop :=
  exists m, nth_error l k = Some m /\
    (forall j y, nth_error l j = Some y -> m <= y) /\
    (forall j y, (j < k)%nat -> nth_error l j = Some y -> m < y).

(** [k] is the first index of a maximal element of [l]. *)
Definition first_max (l : list Q) (k : nat) : Prop :=
  exists m, nth_error l k = Some m /\
    (forall j y, nth_error l j = Some y -> y <= m) /\
    (forall j y, (j < k)%nat -> nth_error l j = Some y -> y < m).

(** [l] without its [k]-th element. *)
Fixpoint remove_nth {A} (k : nat) (l : list A) {struct l} : list A :=
  match l with
  | [] => []
  | x :: l' =>
      match k with
      | O => l'
      | S k' => x :: remove_nth k' l'
      end
  end.

(** Sum of the squared Euclidean distances from [x] to the members of [p]. *)
Definition sum_sq_dists (x : vec) (p : pop) : Q :=
  fold_right Qplus 0 (map (dist_sq x) p).

(** Sum of the Euclidean distances from [x] to the members of [p]. *)
Definition sum_pairwise_dist (p : pop) (x : vec) : R :=
  fold_right Rplus 0%R (map (euclid x) p).

(** [k] is the first index of a maximal element of a list of reals. *)
Definition first_max_R (l : list R) (k : nat) : Prop :=
  exists m, nth_error l k = Some m /\
    (forall j y, nth_error l j = Some y -> (y <= m)%R) /\
    (forall j y, (j < k)%nat -> nth_error l j = Some y -> (y < m)%R).

(** A rank-3 tensor: every member has [d] components. *)
Definition uniform (d : nat) (p : pop) : Prop := Forall (fun v => length v = d) p.

(** Donor candidates of [x] in the idkit [crossing_over]: the members not
    equal in value to [x]. *)
Definition idkit_others (x : vec) (p : pop) : pop :=
  mask_select p (Idkit.is_not_this_tensor x p).

(** Donor candidates of member [i] in the src [crossing_over]: the
    members of index other than [i]. *)
Definition src_others (p : pop) (i : nat) : pop :=
  map (fun k => nth k p []) (filter (fun k => negb (Nat.eqb k i)) (seq 0 (length p))).

(** The [d] uniform draws of [g] starting [s] positions ahead. *)
Definition draws (g : gen) (s d : nat) : vec := map (unif g) (seq (ctr g + s) d).

(** Every member differs in value from some member. *)
Definition has_other (p : pop) : Prop :=
  forall x, In x p -> exists y, In y p /\ torch_equal x y = false.

(** ** Concrete inputs and the claims as first stated *)

(** The claim C1 as a proposition: the member removed is the first one of
    maximal sum of Euclidean distances to the population. *)
Definition cull_removes_max_sum_dist : Prop :=
  forall p : pop, (2 <= length p)%nat ->
  forall k, first_max_R (map (sum_pairwise_dist p) p) k ->
  Idkit.remove_worst_tensor p = Ok (remove_nth k p).

Definition outlier_pop : pop := [[0; 3]; [4; 0]; [4; 3]; [4; 6]].

(** The claim C4 as a proposition. *)
Definition cull_one_fewer_or_fails : Prop :=
  forall p : pop,
    ((2 <= length p)%nat -> exists q, Idkit.remove_worst_tensor p = Ok q /\
                                      length q = (length p - 1)%nat) /\
    ((length p < 2)%nat -> exists e, Idkit.remove_worst_tensor p = Err e).

Definition gen_half : gen := mkGen (fun _ => 1 # 2) (fun _ => 1) 0.

(** The claim C7 as a proposition. *)
Definition cross_small_fails : Prop :=
  forall g P r, (length P < 2)%nat -> exists e, Idkit.crossing_over g P r = Err e.

(** The claim C5 as a proposition, for the idkit copy: on every population
    of at least 2 members of one shape, [crossing_over] returns a population
    of the same size. *)
Definition cross_same_size : Prop :=
  forall g P r d, uniform d P -> (2 <= length P)%nat ->
  exists out g', Idkit.crossing_over g P r = Ok (out, g') /\ length out = length P.

(** The claim C6 at rate 0 as a proposition, for the idkit copy: with
    uniform draws in [0, 1), on every population of at least 2 members of
    one shape, [crossing_over] at rate 0 returns its input. *)
Definition cross_rate_0_identity : Prop :=
  forall g P d, (forall k, 0 <= unif g k < 1) -> (2 <= length P)%nat -> uniform d P ->
  exists g', Idkit.crossing_over g P 0 = Ok (P, g').

(** A population of two equal members. *)
Definition pop_twins : pop := [[0]; [0]].

(** Concrete inputs: a generator with constant draws, one alternating
    between 1/4 and 3/4, and a codec that encodes a path by its length. *)
Definition gen_alt : gen :=
  mkGen (fun k => if Nat.even k then 1 # 4 else 3 # 4) (fun _ => 1) 0.

Definition enc_len (s : string) : vec := [inject_Z (Z.of_nat (String.length s))].

Definition paths3 : list string := ["a"; "bb"; "cccc"]%string.

(** The claim C9 as a proposition: after a successful call on a rank-2
    input with a valid mode and scale, the caller's tensor holds the values
    it held before. *)
Definition mutate_keeps_input : Prop :=
  forall (tensor_std : vec -> Q) h l g rate mode scale v l' h' g',
    nth_error h l = Some (PyTensor (T2 v)) ->
    (mode = "add"%string \/ mode = "reconstruct"%string) ->
    (scale = "partial"%string \/ scale = "total"%string) ->
    Idkit.mutate_img tensor_std h l g rate mode scale = Ok (l', h', g') ->
    exists v', nth_error h' l = Some (PyTensor (T2 v')) /\ torch_equal v v' = true.

(** What a successful [mutate_img] call on the reference [l] does to the
    caller's tensor and where its result is: for rank-3 input and for
    rank-2 [reconstruct]/[total] the result [l'] is a new tensor appended to
    the heap and the caller's tensor [l] still holds its values; otherwise
    the result is the caller's tensor [l] itself, holding new values. *)
Definition mutate_effect (h : heap) (l : nat) (mode scale : string)
    (l' : nat) (h' : heap) : Prop :=
  match nth_error h l with
  | Some (PyTensor (T2 v)) =>
      if String.eqb mode "reconstruct" && String.eqb scale "total"
      then l' = length h /\ nth_error h' l = Some (PyTensor (T2 v)) /\
           exists v', nth_error h' l' = Some (PyTensor (T2 v'))
      else l' = l /\ exists v', nth_error h' l = Some (PyTensor (T2 v'))
  | Some (PyTensor (T3 p)) =>
      l' = length h /\ nth_error h' l = Some (PyTensor (T3 p)) /\
      exists p', nth_error h' l' = Some (PyTensor (T3 p'))
  | _ => False
  end.

(** The shape of the result of [mutate_img] on the reference [l] is the
    shape of the input: same length for a rank-2 tensor, same number of
    members of the same lengths for a rank-3 tensor. *)
Definition mutate_shape (h : heap) (l : nat) (l' : nat) (h' : heap) : Prop :=
  match nth_error h l with
  | Some (PyTensor (T2 v)) =>
      exists v', nth_error h' l' = Some (PyTensor (T2 v')) /\ length v' = length v
  | Some (PyTensor (T3 p)) =>
      exists p', nth_error h' l' = Some (PyTensor (T3 p')) /\
                 map (@length Q) p' = map (@length Q) p
  | _ => False
  end.

(** ** Generic lemmas *)

Lemma Qltb_iff (x y : Q) : Qltb x y = true <-> x < y.
Proof.
  unfold Qltb. rewrite negb_true_iff. split.
  - intros H. apply Qnot_le_lt. intros H'. apply Qle_bool_iff in H'. congruence.
  - intros H. destruct (Qle_bool y x) eqn:E; [|reflexivity].
    apply Qle_bool_iff in E. exfalso. apply (Qlt_not_le x y); assumption.
Qed.

Lemma Qltb_false (x y : Q) : Qltb x y = false -> y <= x.
Proof.
  unfold Qltb. rewrite negb_false_iff. apply Qle_bool_iff.
Qed.

Lemma nth_error_snoc {A} (pre : list A) (x : A) j y :
  nth_error (pre ++ [x]) j = Some y ->
  nth_error pre j = Some y \/ (j = length pre /\ y = x).
Proof.
  intros H. destruct (Nat.lt_ge_cases j (length pre)) as [Hl|Hl].
  - left. rewrite nth_error_app1 in H by exact Hl. exact H.
  - right. rewrite nth_error_app2 in H by exact Hl.
    destruct (j - length pre)%nat eqn:E; simpl in H.
    + split; [lia|congruence].
    + destruct n; discriminate.
Qed.

Lemma scan_min_spec (rest pre : list Q) (bi : nat) (b : Q) :
  nth_error pre bi = Some b ->
  (forall j y, nth_error pre j = Some y -> b <= y) ->
  (forall j y, (j < bi)%nat -> nth_error pre j = Some y -> b < y) ->
  first_min (pre ++ rest) (scan_min bi b (length pre) rest).
Proof.
  revert pre bi b. induction rest as [|x rest IH]; intros pre bi b Hb Hall Hfirst.
  - rewrite app_nil_r. exists b. auto.
  - simpl. replace (pre ++ x :: rest) with ((pre ++ [x]) ++ rest)
      by (rewrite <- app_assoc; reflexivity).
    assert (Hlen : S (length pre) = length (pre ++ [x]))
      by (rewrite length_app; simpl; lia).
    assert (Hbi : (bi < length pre)%nat)
      by (apply nth_error_Some; congruence).
    destruct (Qltb x b) eqn:E.
    + apply Qltb_iff in E. rewrite Hlen. apply IH.
      * rewrite nth_error_app2 by lia. rewrite Nat.sub_diag. reflexivity.
      * intros j y Hj. apply nth_error_snoc in Hj as [Hj|[_ ->]].
        -- apply Qlt_le_weak. apply Qlt_le_trans with b; [exact E|exact (Hall _ _ Hj)].
        -- apply Qle_refl.
      * intros j y Hj Hy. rewrite nth_error_app1 in Hy by lia.
        apply Qlt_le_trans with b; [exact E|exact (Hall _ _ Hy)].
    + apply Qltb_false in E. rewrite Hlen. apply IH.
      * rewrite nth_error_app1 by exact Hbi. exact Hb.
      * intros j y Hj. apply nth_error_snoc in Hj as [Hj|[_ ->]].
        -- exact (Hall _ _ Hj).
        -- exact E.
      * intros j y Hj Hy. rewrite nth_error_app1 in Hy by lia.
        exact (Hfirst _ _ Hj Hy).
Qed.

Lemma argmin_spec (l : list Q) (k : nat) :
  argmin l = Ok k -> first_min l k.
Proof.
  destruct l as [|x l']; simpl; intros H; [discriminate|].
  injection H as <-.
  apply (scan_min_spec l' [x] 0 x); simpl.
  - reflexivity.
  - intros [|j] y Hy; simpl in Hy; [injection Hy as <-; apply Qle_refl|destruct j; discriminate].
  - intros j y Hj. lia.
Qed.

Lemma argmin_ok (l : list Q) : l <> [] -> exists k, argmin l = Ok k.
Proof.
  destruct l; [congruence|]. intros _. simpl. eauto.
Qed.

Lemma first_min_opp (l : list Q) (k : nat) :
  first_min (map Qopp l) k -> first_max l k.
Proof.
  intros (m & Hk & Hall & Hfirst).
  rewrite nth_error_map in Hk.
  destruct (nth_error l k) as [mk|] eqn:E; simpl in Hk; [|discriminate].
  injection Hk as <-. exists mk. split; [exact E|split].
  - intros j y Hy. specialize (Hall j (- y)).
    rewrite nth_error_map, Hy in Hall. simpl in Hall.
    specialize (Hall eq_refl). apply Qopp_le_compat in Hall.
    rewrite !Qopp_involutive in Hall. exact Hall.
  - intros j y Hj Hy. specialize (Hfirst j (- y) Hj).
    rewrite nth_error_map, Hy in Hfirst. simpl in Hfirst.
    specialize (Hfirst eq_refl).
    apply Qnot_le_lt. intros Hle. apply Qopp_le_compat in Hle.
    apply (Qlt_not_le _ _ Hfirst). exact Hle.
Qed.

Lemma argmax_spec (l : list Q) (k : nat) :
  argmax l = Ok k -> first_max l k.
Proof.
  intros H. apply first_min_opp. destruct l as [|x l']; [discriminate|].
  apply argmin_spec. exact H.
Qed.

Lemma argmax_ok (l : list Q) : l <> [] -> exists k, argmax l = Ok k.
Proof.
  destruct l; [congruence|]. intros _. simpl. eauto.
Qed.

Lemma mapM_ok {A B} (f : A -> result B) (h : A -> B) (l : list A) :
  (forall x, f x = Ok (h x)) -> mapM f l = Ok (map h l).
Proof.
  intros Hf. induction l as [|x l IH]; simpl; [reflexivity|].
  rewrite Hf. simpl. rewrite IH. reflexivity.
Qed.

Lemma mask_select_all_kept {A} (l : list A) (s k : nat) :
  (k < s)%nat ->
  mask_select l (map (fun i => negb (Nat.eqb i k)) (seq s (length l))) = l.
Proof.
  revert s. induction l as [|x l IH]; intros s Hks; [reflexivity|].
  unfold mask_select in *. simpl.
  destruct (Nat.eqb s k) eqn:E; [apply Nat.eqb_eq in E; lia|].
  simpl. rewrite IH by lia. reflexivity.
Qed.

Lemma mask_select_remove {A} (l : list A) (s k : nat) :
  (s <= k)%nat ->
  mask_select l (map (fun i => negb (Nat.eqb i k)) (seq s (length l))) = remove_nth (k - s) l.
Proof.
  revert s. induction l as [|x l IH]; intros s Hks; [reflexivity|].
  destruct (Nat.eq_dec s k) as [->|Hne].
  - rewrite Nat.sub_diag. unfold mask_select. simpl. rewrite Nat.eqb_refl. simpl.
    apply (mask_select_all_kept l (S k) k). lia.
  - unfold mask_select in *. simpl.
    destruct (Nat.eqb s k) eqn:E; [apply Nat.eqb_eq in E; contradiction|].
    simpl. rewrite IH by lia.
    replace (k - s)%nat with (S (k - S s)) by lia. reflexivity.
Qed.

Lemma length_remove_nth {A} (l : list A) (k : nat) :
  (k < length l)%nat -> length (remove_nth k l) = (length l - 1)%nat.
Proof.
  revert k. induction l as [|x l IH]; intros [|k] Hk; simpl in *; try lia.
  rewrite IH by lia. lia.
Qed.

Lemma first_max_lt (l : list Q) (k : nat) : first_max l k -> (k < length l)%nat.
Proof.
  intros (m & Hk & _). apply nth_error_Some. congruence.
Qed.

(** Maximality only depends on the values up to [==]. *)
Lemma first_max_map_Qeq {A} (f g : A -> Q) (p : list A) (k : nat) :
  (forall x, In x p -> f x == g x) ->
  first_max (map f p) k -> first_max (map g p) k.
Proof.
  intros Hfg (m & Hk & Hall & Hfirst).
  rewrite nth_error_map in Hk.
  destruct (nth_error p k) as [xk|] eqn:Ek; simpl in Hk; [|discriminate].
  injection Hk as <-.
  assert (Hin : forall j x, nth_error p j = Some x -> In x p)
    by (intros j x Hj; eapply nth_error_In; exact Hj).
  exists (g xk). split; [rewrite nth_error_map, Ek; reflexivity|split].
  - intros j y Hy. rewrite nth_error_map in Hy.
    destruct (nth_error p j) as [xj|] eqn:Ej; simpl in Hy; [|discriminate].
    injection Hy as <-.
    specialize (Hall j (f xj)). rewrite nth_error_map, Ej in Hall.
    specialize (Hall eq_refl).
    rewrite <- (Hfg xj (Hin _ _ Ej)), <- (Hfg xk (Hin _ _ Ek)). exact Hall.
  - intros j y Hj Hy. rewrite nth_error_map in Hy.
    destruct (nth_error p j) as [xj|] eqn:Ej; simpl in Hy; [|discriminate].
    injection Hy as <-.
    specialize (Hfirst j (f xj) Hj). rewrite nth_error_map, Ej in Hfirst.
    specialize (Hfirst eq_refl).
    rewrite <- (Hfg xj (Hin _ _ Ej)), <- (Hfg xk (Hin _ _ Ek)). exact Hfirst.
Qed.

(** ** Distances *)

Lemma dist_sq_nonneg (a b : vec) : 0 <= dist_sq a b.
Proof.
  unfold dist_sq. induction (combine a b) as [|[x y] l IH]; simpl.
  - apply Qle_refl.
  - apply Qle_trans with (0 + 0); [unfold Qle; simpl; lia|].
    apply Qplus_le_compat; [|exact IH].
    exact (Qsqr_nonneg (x - y)).
Qed.

Lemma euclid_le (t a b : vec) : dist_sq t a <= dist_sq t b -> (euclid t a <= euclid t b)%R.
Proof.
  intros H. unfold euclid. apply sqrt_le_1_alt. apply Qle_Rle. exact H.
Qed.

Lemma euclid_lt (t a b : vec) : dist_sq t a < dist_sq t b -> (euclid t a < euclid t b)%R.
Proof.
  intros H. unfold euclid. apply sqrt_lt_1_alt. split.
  - replace 0%R with (Q2R 0) by (unfold Q2R; simpl; ring).
    apply Qle_Rle. apply dist_sq_nonneg.
  - apply Qlt_Rlt. exact H.
Qed.

Lemma dist_sq_app (a1 a2 b1 b2 : vec) :
  length a1 = length b1 ->
  dist_sq (a1 ++ a2) (b1 ++ b2) == dist_sq a1 b1 + dist_sq a2 b2.
Proof.
  revert b1. induction a1 as [|x a1 IH]; intros [|y b1] Hl; simpl in Hl; try discriminate.
  - unfold dist_sq at 2. simpl. rewrite Qplus_0_l. reflexivity.
  - unfold dist_sq in *. simpl. rewrite IH by congruence.
    rewrite Qplus_assoc. reflexivity.
Qed.

(** [torch.dist(tensor, input_tensor)] with broadcasting is the root of the
    sum of the squared distances from [tensor] to every member. *)
Lemma bcast_dist_sq_sum (x : vec) (p : pop) :
  (forall y, In y p -> length y = length x) ->
  Idkit.bcast_dist_sq x p == sum_sq_dists x p.
Proof.
  unfold Idkit.bcast_dist_sq, sum_sq_dists.
  induction p as [|y p IH]; intros Hl; simpl.
  - reflexivity.
  - rewrite dist_sq_app by (symmetry; apply Hl; left; reflexivity).
    rewrite IH by (intros z Hz; apply Hl; right; exact Hz). reflexivity.
Qed.

Lemma sqrt_Q2R_square (z : Z) : (0 <= z)%Z -> sqrt (Q2R (Qmake (z * z) 1)) = IZR z.
Proof.
  intros Hz. unfold Q2R. simpl. rewrite Rinv_1, Rmult_1_r, mult_IZR.
  apply sqrt_square. apply IZR_le. exact Hz.
Qed.

(** Distance tables whose squared entries are perfect squares. *)
Lemma sqrt_table (rows : list (list Q)) (t : list (list Z)) :
  rows = map (map (fun z => Qmake (z * z) 1)) t ->
  Forall (Forall (Z.le 0)) t ->
  map (map (fun q => sqrt (Q2R q))) rows = map (map IZR) t.
Proof.
  intros -> Ht. induction Ht as [|r t Hr Ht IH]; [reflexivity|].
  simpl. rewrite IH. f_equal.
  induction Hr as [|z r Hz Hr IHr]; [reflexivity|].
  simpl. rewrite IHr, sqrt_Q2R_square by exact Hz. reflexivity.
Qed.

(** ** Removal of the worst member *)

Lemma Idkit_remove_worst_first_max (p : pop) :
  p <> [] ->
  exists k, first_max (map (fun x => Idkit.bcast_dist_sq x p) p) k /\
    Idkit.remove_worst_tensor p = Ok (remove_nth k p).
Proof.
  intros Hp. unfold Idkit.remove_worst_tensor.
  destruct (argmax_ok (map (fun x => Idkit.bcast_dist_sq x p) p)) as [k Hk].
  { destruct p; [congruence|discriminate]. }
  exists k. split; [apply argmax_spec; exact Hk|].
  rewrite (mapM_ok _ (fun i => negb (Nat.eqb i k))) by (intros i; rewrite Hk; reflexivity).
  simpl. rewrite mask_select_remove by lia. rewrite Nat.sub_0_r. reflexivity.
Qed.

Lemma Src_remove_worst_first_max (tensor_std : vec -> Q) (p : pop) :
  p <> [] ->
  exists k, first_max (map tensor_std p) k /\
    Src.remove_worst_tensor tensor_std p = Ok (remove_nth k p).
Proof.
  intros Hp. unfold Src.remove_worst_tensor.
  destruct (argmax_ok (map tensor_std p)) as [k Hk].
  { destruct p; [congruence|discriminate]. }
  exists k. split; [apply argmax_spec; exact Hk|].
  cbv zeta. rewrite Hk. simpl.
  rewrite (mapM_ok _ (fun i => negb (Nat.eqb i k))) by (intros i; reflexivity).
  simpl. rewrite mask_select_remove by lia. rewrite Nat.sub_0_r. reflexivity.
Qed.

(** ** Lists updated by index *)

Lemma length_set_nth {A} (i : nat) (v : A) (l : list A) :
  length (set_nth i v l) = length l.
Proof.
  revert i. induction l as [|x l IH]; intros [|i]; simpl; auto.
Qed.

Lemma nth_error_set_nth_eq {A} (i : nat) (v : A) (l : list A) :
  (i < length l)%nat -> nth_error (set_nth i v l) i = Some v.
Proof.
  revert i. induction l as [|x l IH]; intros [|i] Hi; simpl in *; try lia; auto.
  apply IH. lia.
Qed.

Lemma nth_error_set_nth_neq {A} (i j : nat) (v : A) (l : list A) :
  i <> j -> nth_error (set_nth i v l) j = nth_error l j.
Proof.
  revert i j. induction l as [|x l IH]; intros [|i] [|j] Hij; simpl;
    try reflexivity; try lia.
  apply IH. lia.
Qed.

Lemma skipn_cons_inv {A} (i : nat) (l rest : list A) (x : A) :
  skipn i l = x :: rest -> nth_error l i = Some x /\ skipn (S i) l = rest.
Proof.
  revert l. induction i as [|i IH]; intros [|y l] H; simpl in *; try discriminate.
  - injection H as -> ->. auto.
  - apply IH. exact H.
Qed.

Lemma skipn_nil_le {A} (i : nat) (l : list A) : skipn i l = [] -> (length l <= i)%nat.
Proof.
  intros H. pose proof (length_skipn i l) as E. rewrite H in E. simpl in E. lia.
Qed.

Lemma In_skipn {A} (i : nat) (l : list A) (x : A) : In x (skipn i l) -> In x l.
Proof.
  revert l. induction i as [|i IH]; intros [|y l] H; simpl in *; auto.
Qed.

Lemma mask_select_map {A} (f : A -> bool) (l : list A) :
  mask_select l (map f l) = filter f l.
Proof.
  unfold mask_select. induction l as [|x l IH]; simpl; [reflexivity|].
  destruct (f x); simpl; rewrite IH; reflexivity.
Qed.

Lemma torch_where_length (c : list bool) (a b : vec) (d : nat) :
  length c = d -> length a = d -> length b = d -> length (torch_where c a b) = d.
Proof.
  intros Hc Ha Hb. unfold torch_where. rewrite length_map, !length_combine. lia.
Qed.

Lemma torch_where_all_false (c : list bool) (a b : vec) :
  (forall x, In x c -> x = false) -> length c = length b -> length a = length b ->
  torch_where c a b = b.
Proof.
  unfold torch_where. revert a b. induction c as [|ci c IH]; intros [|x a] [|y b] Hc Hl1 Hl2;
    simpl in *; try discriminate; try reflexivity.
  rewrite (Hc ci (or_introl eq_refl)). f_equal.
  apply IH; auto.
Qed.

Lemma torch_where_all_true (c : list bool) (a b : vec) :
  (forall x, In x c -> x = true) -> length c = length a -> length b = length a ->
  torch_where c a b = a.
Proof.
  unfold torch_where. revert a b. induction c as [|ci c IH]; intros [|x a] [|y b] Hc Hl1 Hl2;
    simpl in *; try discriminate; try reflexivity.
  rewrite (Hc ci (or_introl eq_refl)). f_equal.
  apply IH; auto.
Qed.

Lemma lt_mask_draws_0 (g : gen) (s d : nat) :
  (forall k, 0 <= unif g k < 1) -> forall b, In b (lt_mask (draws g s d) 0) -> b = false.
Proof.
  intros Hu b Hb. unfold lt_mask, draws in Hb. rewrite map_map, in_map_iff in Hb.
  destruct Hb as (k & <- & _). destruct (Qltb (unif g k) 0) eqn:E; [|reflexivity].
  apply Qltb_iff in E. destruct (Hu k) as [H0 _].
  exfalso. apply (Qlt_not_le _ _ E H0).
Qed.

Lemma lt_mask_draws_1 (g : gen) (s d : nat) :
  (forall k, 0 <= unif g k < 1) -> forall b, In b (lt_mask (draws g s d) 1) -> b = true.
Proof.
  intros Hu b Hb. unfold lt_mask, draws in Hb. rewrite map_map, in_map_iff in Hb.
  destruct Hb as (k & <- & _). apply Qltb_iff. apply Hu.
Qed.

Lemma length_lt_mask_draws (g : gen) (s d : nat) (r : Q) :
  length (lt_mask (draws g s d) r) = d.
Proof.
  unfold lt_mask, draws. rewrite !length_map, length_seq. reflexivity.
Qed.

(** ** Donor search *)

Lemma chose_closest_tensor_In (x : vec) (cs : pop) (c : vec) :
  chose_closest_tensor x cs = Ok c -> In c cs.
Proof.
  unfold chose_closest_tensor. destruct (argmin (map (dist_sq x) cs)) as [k|e] eqn:E;
    simpl; intros H; [|discriminate].
  injection H as <-. apply argmin_spec in E. destruct E as (m & Hm & _).
  rewrite nth_error_map in Hm.
  destruct (nth_error cs k) as [c|] eqn:Ec; simpl in Hm; [|discriminate].
  rewrite (nth_error_nth _ _ _ Ec). eapply nth_error_In. exact Ec.
Qed.

Lemma chose_closest_tensor_ok (x : vec) (cs : pop) :
  cs <> [] -> exists c, chose_closest_tensor x cs = Ok c.
Proof.
  intros Hne. unfold chose_closest_tensor.
  destruct (argmin_ok (map (dist_sq x) cs)) as [k Hk].
  { destruct cs; [congruence|discriminate]. }
  rewrite Hk. simpl. eauto.
Qed.

Lemma idkit_others_filter (x : vec) (p : pop) :
  idkit_others x p = filter (fun t => negb (torch_equal x t)) p.
Proof.
  unfold idkit_others, Idkit.is_not_this_tensor. apply mask_select_map.
Qed.

Lemma In_src_others (p : pop) (i : nat) (c : vec) :
  In c (src_others p i) -> In c p.
Proof.
  unfold src_others. rewrite in_map_iff. intros (k & <- & Hk).
  apply filter_In in Hk as [Hk _]. apply in_seq in Hk.
  apply nth_In. lia.
Qed.

Lemma src_others_nonempty (p : pop) (i : nat) :
  (2 <= length p)%nat -> src_others p i <> [].
Proof.
  intros Hlen. unfold src_others.
  destruct (Nat.eq_dec i 0) as [->|Hi].
  - assert (H : In 1%nat (filter (fun k => negb (Nat.eqb k 0)) (seq 0 (length p)))).
    { apply filter_In. split; [apply in_seq; lia|reflexivity]. }
    destruct (filter _ _); [contradiction|discriminate].
  - assert (H : In 0%nat (filter (fun k => negb (Nat.eqb k i)) (seq 0 (length p)))).
    { apply filter_In. split; [apply in_seq; lia|].
      destruct i; [contradiction|reflexivity]. }
    destruct (filter _ _); [contradiction|discriminate].
Qed.

(** ** The crossing-over loops *)

Lemma Idkit_crossing_loop_spec (P : pop) (r : Q) (d : nat) :
  uniform d P ->
  forall rest i glob g out g',
  rest = skipn i P -> length glob = length P ->
  Idkit.crossing_loop P r i rest glob g = Ok (out, g') ->
  length out = length P /\
  (forall j, (j < i)%nat -> nth_error out j = nth_error glob j) /\
  (forall j x, (i <= j)%nat -> nth_error P j = Some x ->
     exists dn, chose_closest_tensor x (idkit_others x P) = Ok dn /\
       nth_error out j = Some (torch_where (lt_mask (draws g ((j - i) * d) d) r) dn x)).
Proof.
  intros Hu. induction rest as [|x rest IH]; intros i glob g out g' Hrest Hglob Hloop.
  - simpl in Hloop. injection Hloop as <- <-.
    split; [exact Hglob|split; [reflexivity|]].
    intros j x Hj Hx. symmetry in Hrest. apply skipn_nil_le in Hrest.
    assert (nth_error P j = None) by (apply nth_error_None; lia). congruence.
  - symmetry in Hrest. apply skipn_cons_inv in Hrest as [Hx Hrest'].
    assert (Hi : (i < length P)%nat) by (apply nth_error_Some; congruence).
    simpl in Hloop.
    destruct (chose_closest_tensor x (mask_select P (Idkit.is_not_this_tensor x P)))
      as [dn|e] eqn:Ed; simpl in Hloop; [|discriminate].
    assert (Hdn : length dn = d).
    { apply chose_closest_tensor_In in Ed. unfold mask_select in Ed.
      apply in_map_iff in Ed as ([y b] & <- & Hy). apply filter_In in Hy as [Hy _].
      apply in_combine_l in Hy. unfold uniform in Hu. rewrite Forall_forall in Hu.
      exact (Hu y Hy). }
    apply IH in Hloop; [|symmetry; exact Hrest'|rewrite length_set_nth; exact Hglob].
    destruct Hloop as (Hlen & Hpre & Hpost).
    split; [exact Hlen|split].
    + intros j Hj. rewrite Hpre by lia. apply nth_error_set_nth_neq. lia.
    + intros j y Hij Hy. destruct (Nat.eq_dec j i) as [->|Hne].
      * rewrite Hx in Hy. injection Hy as <-. exists dn. split; [exact Ed|].
        rewrite Hpre by lia. rewrite nth_error_set_nth_eq by lia.
        unfold draws. rewrite Nat.sub_diag, Nat.mul_0_l, Nat.add_0_r, Hdn.
        reflexivity.
      * destruct (Hpost j y ltac:(lia) Hy) as (dn' & Hd' & Ho).
        exists dn'. split; [exact Hd'|]. rewrite Ho. unfold draws, rand, advance.
        cbn [unif ctr].
        replace (ctr g + length dn + (j - S i) * d)%nat with (ctr g + (j - i) * d)%nat;
          [reflexivity|].
        rewrite Hdn. replace (j - i)%nat with (S (j - S i)) by lia. simpl. lia.
Qed.

Lemma Idkit_crossing_loop_ok (P : pop) (r : Q) :
  has_other P ->
  forall rest i glob g, rest = skipn i P ->
  exists out g', Idkit.crossing_loop P r i rest glob g = Ok (out, g').
Proof.
  intros Hother. induction rest as [|x rest IH]; intros i glob g Hrest.
  - simpl. eauto.
  - assert (HxP : In x P) by (apply (In_skipn i); rewrite <- Hrest; left; reflexivity).
    symmetry in Hrest. apply skipn_cons_inv in Hrest as [_ Hrest'].
    destruct (Hother x HxP) as (y & HyP & Hxy).
    destruct (chose_closest_tensor_ok x (idkit_others x P)) as [dn Ed].
    { intros Hnil. assert (Hy : In y (idkit_others x P)).
      { rewrite idkit_others_filter. apply filter_In. rewrite Hxy. auto. }
      rewrite Hnil in Hy. contradiction. }
    simpl. unfold idkit_others in Ed. rewrite Ed. simpl.
    apply IH. symmetry. exact Hrest'.
Qed.

Lemma Src_crossing_loop_spec (P : pop) (r : Q) (d : nat) :
  uniform d P ->
  forall rest i glob g out g',
  rest = skipn i P -> length glob = length P ->
  Src.crossing_loop P r i rest glob g = Ok (out, g') ->
  length out = length P /\
  (forall j, (j < i)%nat -> nth_error out j = nth_error glob j) /\
  (forall j x, (i <= j)%nat -> nth_error P j = Some x ->
     exists dn, chose_closest_tensor x (src_others P j) = Ok dn /\
       nth_error out j = Some (torch_where (lt_mask (draws g ((j - i) * d) d) r) dn x)).
Proof.
  intros Hu. induction rest as [|x rest IH]; intros i glob g out g' Hrest Hglob Hloop.
  - simpl in Hloop. injection Hloop as <- <-.
    split; [exact Hglob|split; [reflexivity|]].
    intros j x Hj Hx. symmetry in Hrest. apply skipn_nil_le in Hrest.
    assert (nth_error P j = None) by (apply nth_error_None; lia). congruence.
  - symmetry in Hrest. apply skipn_cons_inv in Hrest as [Hx Hrest'].
    assert (Hi : (i < length P)%nat) by (apply nth_error_Some; congruence).
    assert (Hxd : length x = d).
    { unfold uniform in Hu. rewrite Forall_forall in Hu. apply Hu.
      eapply nth_error_In. exact Hx. }
    simpl in Hloop.
    destruct (chose_closest_tensor x (src_others P i)) as [dn|e] eqn:Ed;
      unfold src_others in Ed; rewrite Ed in Hloop; simpl in Hloop; [|discriminate].
    apply IH in Hloop; [|symmetry; exact Hrest'|rewrite length_set_nth; exact Hglob].
    destruct Hloop as (Hlen & Hpre & Hpost).
    split; [exact Hlen|split].
    + intros j Hj. rewrite Hpre by lia. apply nth_error_set_nth_neq. lia.
    + intros j y Hij Hy. destruct (Nat.eq_dec j i) as [->|Hne].
      * rewrite Hx in Hy. injection Hy as <-. exists dn. split; [exact Ed|].
        rewrite Hpre by lia. rewrite nth_error_set_nth_eq by lia.
        unfold draws. rewrite Nat.sub_diag, Nat.mul_0_l, Nat.add_0_r, Hxd.
        reflexivity.
      * destruct (Hpost j y ltac:(lia) Hy) as (dn' & Hd' & Ho).
        exists dn'. split; [exact Hd'|]. rewrite Ho. unfold draws, rand, advance.
        cbn [unif ctr].
        replace (ctr g + length x + (j - S i) * d)%nat with (ctr g + (j - i) * d)%nat;
          [reflexivity|].
        rewrite Hxd. replace (j - i)%nat with (S (j - S i)) by lia. simpl. lia.
Qed.

Lemma Src_crossing_loop_ok (P : pop) (r : Q) :
  (2 <= length P)%nat ->
  forall rest i glob g, rest = skipn i P ->
  exists out g', Src.crossing_loop P r i rest glob g = Ok (out, g').
Proof.
  intros Hlen. induction rest as [|x rest IH]; intros i glob g Hrest.
  - simpl. eauto.
  - symmetry in Hrest. apply skipn_cons_inv in Hrest as [_ Hrest'].
    destruct (chose_closest_tensor_ok x (src_others P i)) as [dn Ed].
    { apply src_others_nonempty. exact Hlen. }
    simpl. unfold src_others in Ed. rewrite Ed. simpl.
    apply IH. symmetry. exact Hrest'.
Qed.

Lemma Idkit_crossing_over_spec (P : pop) (r : Q) (d : nat) (g g' : gen) (out : pop) :
  uniform d P ->
  Idkit.crossing_over g P r = Ok (out, g') ->
  length out = length P /\
  (forall i x, nth_error P i = Some x ->
     exists dn, chose_closest_tensor x (idkit_others x P) = Ok dn /\
       nth_error out i = Some (torch_where (lt_mask (draws g (i * d) d) r) dn x)).
Proof.
  intros Hu H. unfold Idkit.crossing_over in H.
  apply (Idkit_crossing_loop_spec P r d Hu) in H;
    [|reflexivity|unfold zeros_like; rewrite length_map; reflexivity].
  destruct H as (Hlen & _ & Hpost). split; [exact Hlen|].
  intros i x Hx. destruct (Hpost i x ltac:(lia) Hx) as (dn & H1 & H2).
  rewrite Nat.sub_0_r in H2. eauto.
Qed.

Lemma Src_crossing_over_spec (P : pop) (r : Q) (d : nat) (g g' : gen) (out : pop) :
  uniform d P ->
  Src.crossing_over g P r = Ok (out, g') ->
  length out = length P /\
  (forall i x, nth_error P i = Some x ->
     exists dn, chose_closest_tensor x (src_others P i) = Ok dn /\
       nth_error out i = Some (torch_where (lt_mask (draws g (i * d) d) r) dn x)).
Proof.
  intros Hu H. unfold Src.crossing_over in H.
  apply (Src_crossing_loop_spec P r d Hu) in H;
    [|reflexivity|unfold zeros_like; rewrite length_map; reflexivity].
  destruct H as (Hlen & _ & Hpost). split; [exact Hlen|].
  intros i x Hx. destruct (Hpost i x ltac:(lia) Hx) as (dn & H1 & H2).
  rewrite Nat.sub_0_r in H2. eauto.
Qed.

Lemma Idkit_crossing_loop_length (P : pop) (r : Q) :
  forall rest i glob g out g',
  Idkit.crossing_loop P r i rest glob g = Ok (out, g') -> length out = length glob.
Proof.
  induction rest as [|x rest IH]; intros i glob g out g' H; simpl in H.
  - injection H as <- <-. reflexivity.
  - destruct (chose_closest_tensor x _) as [dn|e]; simpl in H; [|discriminate].
    apply IH in H. rewrite H, length_set_nth. reflexivity.
Qed.

Lemma Src_crossing_loop_length (P : pop) (r : Q) :
  forall rest i glob g out g',
  Src.crossing_loop P r i rest glob g = Ok (out, g') -> length out = length glob.
Proof.
  induction rest as [|x rest IH]; intros i glob g out g' H; simpl in H.
  - injection H as <- <-. reflexivity.
  - destruct (chose_closest_tensor x _) as [dn|e]; simpl in H; [|discriminate].
    apply IH in H. rewrite H, length_set_nth. reflexivity.
Qed.

Lemma torch_equal_refl (a : vec) : torch_equal a a = true.
Proof.
  induction a as [|x a IH]; simpl; [reflexivity|]. rewrite Qeq_bool_refl, IH. reflexivity.
Qed.

Lemma torch_equal_sym (a b : vec) : torch_equal a b = torch_equal b a.
Proof.
  revert b. induction a as [|x a IH]; intros [|y b]; simpl; try reflexivity.
  rewrite Qeq_bool_comm, IH. reflexivity.
Qed.

(** Rate 0 keeps the member, rate 1 takes the donor. *)
Lemma where_rate_0 (g : gen) (s d : nat) (dn x : vec) :
  (forall k, 0 <= unif g k < 1) -> length dn = d -> length x = d ->
  torch_where (lt_mask (draws g s d) 0) dn x = x.
Proof.
  intros Hu Hdn Hx. apply torch_where_all_false.
  - apply lt_mask_draws_0. exact Hu.
  - rewrite length_lt_mask_draws. congruence.
  - congruence.
Qed.

Lemma where_rate_1 (g : gen) (s d : nat) (dn x : vec) :
  (forall k, 0 <= unif g k < 1) -> length dn = d -> length x = d ->
  torch_where (lt_mask (draws g s d) 1) dn x = dn.
Proof.
  intros Hu Hdn Hx. apply torch_where_all_true.
  - apply lt_mask_draws_1. exact Hu.
  - rewrite length_lt_mask_draws. congruence.
  - congruence.
Qed.

Lemma uniform_In (d : nat) (P : pop) (x : vec) : uniform d P -> In x P -> length x = d.
Proof.
  unfold uniform. rewrite Forall_forall. auto.
Qed.

Lemma nth_error_ext_len {A} (l l' : list A) :
  length l = length l' ->
  (forall i x, nth_error l' i = Some x -> nth_error l i = Some x) -> l = l'.
Proof.
  intros Hlen H. apply nth_error_ext. intros i.
  destruct (nth_error l' i) as [x|] eqn:E; [apply H; exact E|].
  apply nth_error_None. apply nth_error_None in E. lia.
Qed.

Lemma filter_all_false {A} (f : A -> bool) (l : list A) :
  (forall t, In t l -> f t = false) -> filter f l = [].
Proof.
  induction l as [|a l IH]; intros H; simpl; [reflexivity|].
  rewrite (H a (or_introl eq_refl)). apply IH. intros t Ht. apply H. right. exact Ht.
Qed.

(** ** Further helper lemmas *)

Lemma advance_0 (g : gen) : advance g 0 = g.
Proof.
  destruct g as [u z c]. unfold advance. simpl. rewrite Nat.add_0_r. reflexivity.
Qed.

Lemma advance_advance (g : gen) (a b : nat) : advance (advance g a) b = advance g (a + b).
Proof.
  unfold advance. simpl. rewrite Nat.add_assoc. reflexivity.
Qed.


(** Each iteration of the src loop draws as many uniforms as its member
    has components. *)
Lemma Src_crossing_loop_gen (P : pop) (r : Q) (d : nat) :
  forall rest i glob g out g', uniform d rest ->
  Src.crossing_loop P r i rest glob g = Ok (out, g') ->
  g' = advance g (length rest * d).
Proof.
  induction rest as [|x rest IH]; intros i glob g out g' Hu H; simpl in H.
  - injection H as _ <-. rewrite advance_0. reflexivity.
  - inversion Hu as [|x' rest' Hx Hrest]; subst.
    destruct (chose_closest_tensor x _) as [dn|e]; simpl in H; [|discriminate].
    apply IH in H; [|exact Hrest]. rewrite H, advance_advance. simpl; f_equal; lia.
Qed.

Lemma torch_where_coord (m : list bool) (a b : vec) (j : nat) (c : Q) :
  nth_error (torch_where m a b) j = Some c ->
  nth_error a j = Some c \/ nth_error b j = Some c.
Proof.
  unfold torch_where. revert a b j. induction m as [|mi m IH]; intros [|x a] [|y b] j H;
    simpl in H; try (destruct j; discriminate).
  destruct j as [|j]; simpl in H |- *.
  - injection H as <-. destruct mi; auto.
  - apply IH. exact H.
Qed.

Lemma torch_where_same (m : list bool) (a : vec) :
  length m = length a -> torch_where m a a = a.
Proof.
  unfold torch_where. revert a. induction m as [|mi m IH]; intros [|x a] H;
    simpl in *; try discriminate; try reflexivity.
  destruct mi; f_equal; apply IH; lia.
Qed.

Lemma uniform_nth (d : nat) (P : pop) :
  (forall i x, nth_error P i = Some x -> length x = d) -> uniform d P.
Proof.
  intros H. unfold uniform. apply Forall_forall. intros x Hx.
  apply In_nth_error in Hx as [i Hi]. exact (H i x Hi).
Qed.

Lemma uniform_repeat (x : vec) (n : nat) : uniform (length x) (repeat x n).
Proof.
  unfold uniform. apply Forall_forall. intros y Hy. apply repeat_spec in Hy. subst. reflexivity.
Qed.

Lemma length_masked_assign (m : list bool) (vals v : vec) :
  length (masked_assign m vals v) = length v.
Proof.
  revert vals v. induction m as [|b m IH]; intros vals [|x v]; simpl; try reflexivity.
  destruct b; [destruct vals|]; simpl; rewrite IH; reflexivity.
Qed.

Lemma firstn_set_nth {A} (i : nat) (x : A) (l : list A) :
  (i < length l)%nat -> firstn (S i) (set_nth i x l) = firstn i l ++ [x].
Proof.
  revert i. induction l as [|a l IH]; intros [|i] Hi; simpl in *; try lia.
  - reflexivity.
  - rewrite IH by lia. reflexivity.
Qed.

Lemma nth_error_app_length {A} (h : list A) (x : A) : nth_error (h ++ [x]) (length h) = Some x.
Proof.
  rewrite nth_error_app2, Nat.sub_diag by lia. reflexivity.
Qed.

(** Where a mutation puts its result: into the caller's cell, or into a
    new cell after the caller's, which keeps its value. *)
Ltac effect_solve Hl :=
  first
    [ split; [reflexivity|eexists; apply nth_error_set_nth_eq;
                          apply nth_error_Some; rewrite Hl; discriminate]
    | split; [reflexivity|split;
        [rewrite nth_error_app1; [exact Hl|apply nth_error_Some; rewrite Hl; discriminate]
        |eexists; apply nth_error_app_length]] ].

(** Lengths of the tensors built by the mutation branches. *)
Ltac len_solve :=
  unfold torch_where, vadd, lt_mask;
  repeat rewrite ?length_map, ?length_combine, ?length_seq, ?length_masked_assign;
  lia.

Lemma Idkit_mutate_member_length (tensor_std : vec -> Q) (g g1 : gen) (x y : vec)
    (rate : Q) (mode scale : string) :
  Idkit.mutate_member tensor_std g x rate mode scale = Ok (y, g1) -> length y = length x.
Proof.
  unfold Idkit.mutate_member. cbv zeta.
  destruct (String.eqb mode "add"); [|destruct (String.eqb mode "reconstruct")];
    destruct (String.eqb scale "partial"); try destruct (String.eqb scale "total");
    simpl; intros H; try discriminate; injection H as <- _; try reflexivity; len_solve.
Qed.

Lemma Src_mutate_member_length (tensor_std : vec -> Q) (g g1 : gen) (x y : vec)
    (rate noise : Q) (mode scale : string) :
  Src.mutate_member tensor_std g x rate noise mode scale = Ok (y, g1) -> length y = length x.
Proof.
  unfold Src.mutate_member. cbv zeta.
  destruct (String.eqb mode "add"); [|destruct (String.eqb mode "reconstruct")];
    destruct (String.eqb scale "partial"); try destruct (String.eqb scale "total");
    simpl; intros H; try discriminate; injection H as <- _; try reflexivity; len_solve.
Qed.

Lemma Idkit_mutate_loop_shape (tensor_std : vec -> Q) (rate : Q) (mode scale : string) :
  forall rest i glob g out g',
  length glob = (i + length rest)%nat ->
  Idkit.mutate_loop tensor_std g rate mode scale i rest glob = Ok (out, g') ->
  map (@length Q) out = map (@length Q) (firstn i glob) ++ map (@length Q) rest.
Proof.
  induction rest as [|x rest IH]; intros i glob g out g' Hl H; simpl in H.
  - injection H as <- _. simpl in Hl. rewrite firstn_all2 by lia. rewrite app_nil_r. reflexivity.
  - destruct (Idkit.mutate_member tensor_std g x rate mode scale) as [[y g1]|e] eqn:Em;
      simpl in H; [|discriminate].
    apply IH in H; [|rewrite length_set_nth; simpl in Hl; lia].
    rewrite H, firstn_set_nth by (simpl in Hl; lia).
    rewrite map_app, <- app_assoc. simpl.
    rewrite (Idkit_mutate_member_length _ _ _ _ _ _ _ _ Em). reflexivity.
Qed.

Lemma Src_mutate_loop_shape (tensor_std : vec -> Q) (rate noise : Q) (mode scale : string) :
  forall rest i glob g out g',
  length glob = (i + length rest)%nat ->
  Src.mutate_loop tensor_std g rate noise mode scale i rest glob = Ok (out, g') ->
  map (@length Q) out = map (@length Q) (firstn i glob) ++ map (@length Q) rest.
Proof.
  induction rest as [|x rest IH]; intros i glob g out g' Hl H; simpl in H.
  - injection H as <- _. simpl in Hl. rewrite firstn_all2 by lia. rewrite app_nil_r. reflexivity.
  - destruct (Src.mutate_member tensor_std g x rate noise mode scale) as [[y g1]|e] eqn:Em;
      simpl in H; [|discriminate].
    apply IH in H; [|rewrite length_set_nth; simpl in Hl; lia].
    rewrite H, firstn_set_nth by (simpl in Hl; lia).
    rewrite map_app, <- app_assoc. simpl.
    rewrite (Src_mutate_member_length _ _ _ _ _ _ _ _ _ Em). reflexivity.
Qed.

Lemma lt_mask_nonneg_0 (f : nat -> Q) (ks : list nat) :
  (forall k, 0 <= f k) -> forall b, In b (lt_mask (map f ks) 0) -> b = false.
Proof.
  intros Hf b Hb. unfold lt_mask in Hb. rewrite map_map, in_map_iff in Hb.
  destruct Hb as (k & <- & _). destruct (Qltb (f k) 0) eqn:E; [|reflexivity].
  apply Qltb_iff in E. exfalso. exact (Qlt_not_le _ _ E (Hf k)).
Qed.

Lemma masked_assign_all_false (m : list bool) (vals v : vec) :
  (forall b, In b m -> b = false) -> masked_assign m vals v = v.
Proof.
  revert vals v. induction m as [|b m IH]; intros vals [|x v] Hm; simpl; try reflexivity.
  rewrite (Hm b (or_introl eq_refl)). f_equal. apply IH. intros b' Hb'. apply Hm. right. exact Hb'.
Qed.

Lemma set_nth_same {A} (i : nat) (a : A) (l : list A) :
  nth_error l i = Some a -> set_nth i a l = l.
Proof.
  revert i. induction l as [|x l IH]; intros [|i] H; simpl in *; try discriminate.
  - injection H as ->. reflexivity.
  - f_equal. apply IH. exact H.
Qed.

(** A partial mutation at rate 0 leaves a member as it is, for draws that
    are never negative. *)
Lemma Idkit_mutate_member_rate_0 (tensor_std : vec -> Q) (g : gen) (x : vec) (mode : string) :
  (mode = "add"%string \/ mode = "reconstruct"%string) ->
  (forall k, 0 <= unif g k) ->
  exists g1, Idkit.mutate_member tensor_std g x 0 mode "partial" = Ok (x, g1) /\ unif g1 = unif g.
Proof.
  intros [-> | ->] Hu; unfold Idkit.mutate_member; simpl;
    (rewrite torch_where_all_false;
     [eexists; split; reflexivity | apply lt_mask_nonneg_0; exact Hu | len_solve | len_solve]).
Qed.

Lemma Src_mutate_member_rate_0 (tensor_std : vec -> Q) (g : gen) (x : vec) (noise : Q)
    (mode : string) :
  (mode = "add"%string \/ mode = "reconstruct"%string) ->
  (forall k, 0 <= unif g k) ->
  exists g1, Src.mutate_member tensor_std g x 0 noise mode "partial" = Ok (x, g1) /\ unif g1 = unif g.
Proof.
  intros [-> | ->] Hu; unfold Src.mutate_member; simpl;
    (rewrite torch_where_all_false;
     [eexists; split; reflexivity | apply lt_mask_nonneg_0; exact Hu | len_solve | len_solve]).
Qed.

(** A rank-3 loop whose every step keeps its member rebuilds the
    population. *)
Lemma Idkit_mutate_loop_rate_0 (tensor_std : vec -> Q) (mode : string) :
  (mode = "add"%string \/ mode = "reconstruct"%string) ->
  forall rest i glob g, (forall k, 0 <= unif g k) ->
  length glob = (i + length rest)%nat ->
  exists g', Idkit.mutate_loop tensor_std g 0 mode "partial" i rest glob
             = Ok (firstn i glob ++ rest, g').
Proof.
  intros Hm. induction rest as [|x rest IH]; intros i glob g Hu Hl; simpl.
  - simpl in Hl. rewrite firstn_all2 by lia. rewrite app_nil_r. eauto.
  - destruct (Idkit_mutate_member_rate_0 tensor_std g x mode Hm Hu) as (g1 & E & Eu).
    rewrite E. simpl.
    destruct (IH (S i) (set_nth i x glob) g1) as [g' H].
    + rewrite Eu. exact Hu.
    + rewrite length_set_nth. simpl in Hl. lia.
    + exists g'. rewrite H, firstn_set_nth by (simpl in Hl; lia).
      rewrite <- app_assoc. reflexivity.
Qed.

Lemma Src_mutate_loop_rate_0 (tensor_std : vec -> Q) (noise : Q) (mode : string) :
  (mode = "add"%string \/ mode = "reconstruct"%string) ->
  forall rest i glob g, (forall k, 0 <= unif g k) ->
  length glob = (i + length rest)%nat ->
  exists g', Src.mutate_loop tensor_std g 0 noise mode "partial" i rest glob
             = Ok (firstn i glob ++ rest, g').
Proof.
  intros Hm. induction rest as [|x rest IH]; intros i glob g Hu Hl; simpl.
  - simpl in Hl. rewrite firstn_all2 by lia. rewrite app_nil_r. eauto.
  - destruct (Src_mutate_member_rate_0 tensor_std g x noise mode Hm Hu) as (g1 & E & Eu).
    rewrite E. simpl.
    destruct (IH (S i) (set_nth i x glob) g1) as [g' H].
    + rewrite Eu. exact Hu.
    + rewrite length_set_nth. simpl in Hl. lia.
    + exists g'. rewrite H, firstn_set_nth by (simpl in Hl; lia).
      rewrite <- app_assoc. reflexivity.
Qed.

Lemma Src_crossing_over_repeat (x : vec) (n : nat) (r : Q) (g : gen) :
  (2 <= n)%nat ->
  Src.crossing_over g (repeat x n) r = Ok (repeat x n, advance g (n * length x)).
Proof.
  intros Hn.
  assert (Hlen : (2 <= length (repeat x n))%nat) by (rewrite repeat_length; exact Hn).
  destruct (Src_crossing_loop_ok (repeat x n) r Hlen (repeat x n) 0
              (zeros_like (repeat x n)) g eq_refl) as (out & g' & H).
  change (Src.crossing_over g (repeat x n) r = Ok (out, g')) in H.
  pose proof (uniform_repeat x n) as Hu.
  pose proof (Src_crossing_loop_gen (repeat x n) r (length x) (repeat x n) 0
                (zeros_like (repeat x n)) g out g' Hu H) as Hg.
  rewrite repeat_length in Hg. subst g'.
  destruct (Src_crossing_over_spec (repeat x n) r (length x) g _ out Hu H) as [Hl Hout].
  replace out with (repeat x n) in H; [exact H|].
  symmetry. apply nth_error_ext_len; [exact Hl|]. intros i y Hy.
  assert (y = x) by (apply nth_error_In, repeat_spec in Hy; exact Hy). subst y.
  destruct (Hout i x Hy) as (dn & Hd & Ho). rewrite Ho.
  apply chose_closest_tensor_In, In_src_others, repeat_spec in Hd. subst dn.
  f_equal. apply torch_where_same. apply length_lt_mask_draws.
Qed.

Lemma remove_nth_repeat {A} (x : A) (n k : nat) :
  (k < n)%nat -> remove_nth k (repeat x n) = repeat x (n - 1).
Proof.
  revert k. induction n as [|n IH]; intros [|k] Hk; simpl; try lia.
  - rewrite Nat.sub_0_r. reflexivity.
  - rewrite IH by lia. destruct n; [lia|]. simpl. rewrite Nat.sub_0_r. reflexivity.
Qed.

Lemma Qle_sum_nonneg_l (s t : Q) : 0 <= s -> 0 <= t -> s + t <= 0 -> s == 0.
Proof.
  intros Hs Ht H. apply Qle_antisym; [|exact Hs].
  apply Qle_trans with (s + t); [|exact H].
  setoid_replace s with (s + 0) at 1 by ring. apply Qplus_le_r. exact Ht.
Qed.

Lemma dist_sq_le_0_equal (a b : vec) :
  length a = length b -> dist_sq a b <= 0 -> torch_equal a b = true.
Proof.
  revert b. induction a as [|x a IH]; intros [|y b] Hl H; simpl in *; try discriminate;
    [reflexivity|].
  unfold dist_sq in H. simpl in H. fold (dist_sq a b) in H.
  pose proof (Qsqr_nonneg (x - y)) as Hxy. pose proof (dist_sq_nonneg a b) as Hab.
  assert (H1 : (x - y) * (x - y) == 0) by (exact (Qle_sum_nonneg_l _ _ Hxy Hab H)).
  assert (H2 : dist_sq a b == 0).
  { apply (Qle_sum_nonneg_l _ ((x - y) * (x - y))); [exact Hab|exact Hxy|].
    rewrite Qplus_comm. exact H. }
  rewrite IH; [|lia|rewrite H2; apply Qle_refl].
  rewrite andb_true_r. apply Qeq_bool_iff.
  destruct (Qmult_integral _ _ H1) as [E|E];
    setoid_replace x with (x - y + y) by ring; rewrite E; ring.
Qed.

Lemma torch_equal_dist_sq (a b : vec) : torch_equal a b = true -> dist_sq a b == 0.
Proof.
  revert b. induction a as [|x a IH]; intros [|y b] H; simpl in *; try discriminate;
    [reflexivity|].
  apply andb_true_iff in H as [Hxy Hab]. apply Qeq_bool_iff in Hxy.
  unfold dist_sq. simpl. fold (dist_sq a b). rewrite (IH b Hab), Hxy. ring.
Qed.

(** When a candidate equals the input in value, the donor found also
    equals it in value. *)
Lemma chose_closest_tensor_equal (x : vec) (cs : pop) (y : vec) :
  (forall c, In c cs -> length c = length x) ->
  In y cs -> torch_equal x y = true ->
  exists dn, chose_closest_tensor x cs = Ok dn /\ torch_equal x dn = true.
Proof.
  intros Hl Hy Hxy.
  destruct (chose_closest_tensor_ok x cs) as [dn Hd]; [intros ->; destruct Hy|].
  exists dn. split; [exact Hd|].
  pose proof Hd as Hin. apply chose_closest_tensor_In in Hin.
  unfold chose_closest_tensor in Hd.
  destruct (argmin (map (dist_sq x) cs)) as [k|e] eqn:E; simpl in Hd; [|discriminate].
  injection Hd as <-. apply argmin_spec in E. destruct E as (m & Hm & Hmin & _).
  apply In_nth_error in Hy as [j Hj].
  assert (Hmj : m <= dist_sq x y)
    by (apply (Hmin j); rewrite nth_error_map, Hj; reflexivity).
  rewrite nth_error_map in Hm.
  destruct (nth_error cs k) as [c|] eqn:Ec; simpl in Hm; [|discriminate].
  injection Hm as <-. rewrite (nth_error_nth _ _ _ Ec).
  apply dist_sq_le_0_equal.
  - symmetry. apply Hl. eapply nth_error_In. exact Ec.
  - rewrite (torch_equal_dist_sq x y Hxy) in Hmj. exact Hmj.
Qed.

Lemma torch_where_equal (m : list bool) (a b : vec) :
  torch_equal b a = true -> length m = length b -> torch_equal (torch_where m a b) b = true.
Proof.
  unfold torch_where. revert a b. induction m as [|mi m IH]; intros [|x a] [|y b] Hab Hl;
    simpl in *; try discriminate; try reflexivity.
  apply andb_true_iff in Hab as [Hyx Hab].
  rewrite IH; [|exact Hab|lia]. rewrite andb_true_r.
  destruct mi; [rewrite Qeq_bool_comm; exact Hyx|apply Qeq_bool_refl].
Qed.

Lemma In_src_others_index (p : pop) (i j : nat) (y : vec) :
  i <> j -> nth_error p j = Some y -> In y (src_others p i).
Proof.
  intros Hij Hy. unfold src_others. apply in_map_iff. exists j.
  split; [apply nth_error_nth; exact Hy|].
  apply filter_In. split.
  - apply in_seq. split; [lia|]. simpl. apply nth_error_Some. congruence.
  - apply negb_true_iff, Nat.eqb_neq. lia.
Qed.

(** * Claims *)

(** ** Nearest neighbour *)

(** C8: [chose_closest_tensor] returns the first candidate, in iteration
    order, of minimal Euclidean distance to the target; on an empty
    candidate sequence it fails (torch's [argmin] of an empty tensor
    raises). *)
Theorem chose_closest_tensor_first_nearest (target : vec) (cands : pop) :
  (cands = [] -> chose_closest_tensor target cands = Err (RuntimeError argmin_empty_msg)) /\
  (cands <> [] ->
   exists k c, chose_closest_tensor target cands = Ok c /\ nth_error cands k = Some c /\
     (forall j c', nth_error cands j = Some c' -> (euclid target c <= euclid target c')%R) /\
     (forall j c', (j < k)%nat -> nth_error cands j = Some c' ->
        (euclid target c < euclid target c')%R)).
Proof.
  split; [intros ->; reflexivity|].
  intros Hne. unfold chose_closest_tensor.
  destruct (argmin_ok (map (dist_sq target) cands)) as [k Hk].
  { destruct cands; [congruence|discriminate]. }
  destruct (argmin_spec _ _ Hk) as (m & Hm & Hall & Hfirst).
  rewrite nth_error_map in Hm.
  destruct (nth_error cands k) as [c|] eqn:Ec; simpl in Hm; [|discriminate].
  injection Hm as <-.
  exists k, c. rewrite Hk. simpl.
  split; [f_equal; apply nth_error_nth; exact Ec|].
  split; [exact Ec|split].
  - intros j c' Hj. apply euclid_le.
    apply (Hall j). rewrite nth_error_map, Hj. reflexivity.
  - intros j c' Hjk Hj. apply euclid_lt.
    apply (Hfirst j _ Hjk). rewrite nth_error_map, Hj. reflexivity.
Qed.

Lemma chose_closest_tensor_first_nearest_witness :
  chose_closest_tensor [0; 0] [[3; 4]; [1; 0]; [0; 1]] = Ok [1; 0] /\
  (let t : vec := [0; 0] in
   let cs : pop := [[3; 4]; [1; 0]; [0; 1]] in
   exists k c, chose_closest_tensor t cs = Ok c /\ nth_error cs k = Some c /\
    (forall j c', nth_error cs j = Some c' -> (euclid t c <= euclid t c')%R) /\
    (forall j c', (j < k)%nat -> nth_error cs j = Some c' -> (euclid t c < euclid t c')%R)).
Proof.
  split; [vm_compute; reflexivity|].
  apply (proj2 (chose_closest_tensor_first_nearest [0; 0] [[3; 4]; [1; 0]; [0; 1]])).
  discriminate.
Defined.

(** ** Culling *)

Lemma outlier_pop_sums :
  map (sum_pairwise_dist outlier_pop) outlier_pop =
  map (fold_right Rplus 0%R)
    (map (map IZR) [[0; 5; 4; 5]; [5; 0; 3; 6]; [4; 3; 0; 3]; [5; 6; 3; 0]]%Z).
Proof.
  rewrite <- (sqrt_table (map (fun x => map (dist_sq x) outlier_pop) outlier_pop)).
  - unfold sum_pairwise_dist, euclid. rewrite !map_map. apply map_ext. intros x.
    rewrite map_map. reflexivity.
  - vm_compute. reflexivity.
  - repeat constructor; lia.
Qed.

(** C1 (counterexample): on the population (0,3), (4,0), (4,3), (4,6),
    the sums of distances are 14, 14, 10, 14, so the rule of the claim
    removes member 0; the sums of squared distances are 66, 70, 34, 70 and
    [remove_worst_tensor] removes member 1. *)
Lemma remove_worst_tensor_not_max_sum_dist : ~ cull_removes_max_sum_dist.
Proof.
  intros H. specialize (H outlier_pop ltac:(simpl; lia) 0%nat).
  assert (Hmax : first_max_R (map (sum_pairwise_dist outlier_pop) outlier_pop) 0).
  { rewrite outlier_pop_sums. simpl.
    eexists. split; [reflexivity|split].
    - intros [|[|[|[|j]]]] y Hy; simpl in Hy;
        try (destruct j; discriminate); injection Hy as <-; lra.
    - intros j y Hj. lia. }
  specialize (H Hmax). vm_compute in H. discriminate H.
Qed.

(** C1 (amended): for a population of at least 2 members of one shape,
    the idkit [remove_worst_tensor] removes the first member maximising the
    sum of its squared Euclidean distances to the members (the square of
    [torch.dist] of the member broadcast against the population); the src
    [remove_worst_tensor] removes the first member of maximal standard
    deviation of its own components. *)
Theorem remove_worst_tensor_removes_outlier (p : pop) (d : nat) :
  (2 <= length p)%nat -> uniform d p ->
  (exists k, first_max (map (fun x => sum_sq_dists x p) p) k /\
     Idkit.remove_worst_tensor p = Ok (remove_nth k p)) /\
  (forall tensor_std : vec -> Q, exists k, first_max (map tensor_std p) k /\
     Src.remove_worst_tensor tensor_std p = Ok (remove_nth k p)).
Proof.
  intros Hlen Hu.
  assert (Hp : p <> []) by (destruct p; simpl in Hlen; [lia|discriminate]).
  split.
  - destruct (Idkit_remove_worst_first_max p Hp) as (k & Hk & Hr).
    exists k. split; [|exact Hr].
    apply (first_max_map_Qeq (fun x => Idkit.bcast_dist_sq x p)); [|exact Hk].
    intros x Hx. apply bcast_dist_sq_sum. intros y Hy.
    unfold uniform in Hu. rewrite Forall_forall in Hu.
    rewrite (Hu y Hy), (Hu x Hx). reflexivity.
  - intros tensor_std. apply Src_remove_worst_first_max. exact Hp.
Qed.

Lemma remove_worst_tensor_removes_outlier_witness :
  ((2 <= length outlier_pop)%nat /\ uniform 2 outlier_pop) /\
  Idkit.remove_worst_tensor outlier_pop = Ok (remove_nth 1 outlier_pop) /\
  (exists k, first_max (map (fun x => sum_sq_dists x outlier_pop) outlier_pop) k /\
     Idkit.remove_worst_tensor outlier_pop = Ok (remove_nth k outlier_pop)).
Proof.
  assert (H : (2 <= length outlier_pop)%nat /\ uniform 2 outlier_pop)
    by (split; [simpl; lia|repeat constructor]).
  split; [exact H|split; [vm_compute; reflexivity|]].
  destruct H as [H1 H2].
  exact (proj1 (remove_worst_tensor_removes_outlier outlier_pop 2 H1 H2)).
Defined.


(** C4 (counterexample): on a one-member population [remove_worst_tensor]
    returns the empty population instead of failing. *)
Lemma remove_worst_tensor_single_no_error : ~ cull_one_fewer_or_fails.
Proof.
  intros H. destruct (proj2 (H [[0]]) ltac:(simpl; lia)) as [e He].
  vm_compute in He. discriminate He.
Qed.

(** C4 (amended): on a population of at least 2 members
    [remove_worst_tensor] removes exactly one member; on a population of
    fewer than 2 members it returns the empty population (it never
    raises). *)
Theorem remove_worst_tensor_size (p : pop) :
  ((2 <= length p)%nat -> exists k, (k < length p)%nat /\
     Idkit.remove_worst_tensor p = Ok (remove_nth k p) /\
     length (remove_nth k p) = (length p - 1)%nat) /\
  ((length p < 2)%nat -> Idkit.remove_worst_tensor p = Ok []).
Proof.
  split.
  - intros Hlen.
    assert (Hp : p <> []) by (destruct p; simpl in Hlen; [lia|discriminate]).
    destruct (Idkit_remove_worst_first_max p Hp) as (k & Hk & Hr).
    apply first_max_lt in Hk. rewrite length_map in Hk.
    exists k. split; [exact Hk|split; [exact Hr|]].
    apply length_remove_nth. exact Hk.
  - intros Hlen. destruct p as [|x [|y p]]; simpl in Hlen; try lia; reflexivity.
Qed.

Lemma remove_worst_tensor_size_witness :
  Idkit.remove_worst_tensor [[1]] = Ok [] /\
  exists k, (k < 3)%nat /\
    Idkit.remove_worst_tensor [[0]; [1]; [5]] = Ok (remove_nth k [[0]; [1]; [5]]) /\
    length (remove_nth k [[0]; [1]; [5]]) = 2%nat.
Proof.
  split.
  - apply (proj2 (remove_worst_tensor_size [[1]])). simpl. lia.
  - apply (proj1 (remove_worst_tensor_size [[0]; [1]; [5]])). simpl. lia.
Defined.

(** ** Crossing-over *)

(** C5: [crossing_over] returns a population of the input's size, in the
    input's order, whose member [i] is [torch.where(draws_i < rate, donor,
    x_i)]: [x_i] and its donor (the member closest to [x_i] among the
    candidates of [x_i]) are taken from the input population, never from
    the output being filled; [draws_i] is the [i]-th block of uniform
    draws. The src copy does so for every population of at least 2
    members, the idkit copy for every population where each member differs
    from some member. *)
Theorem crossing_over_from_snapshot (P : pop) (r : Q) (d : nat) (g : gen) :
  uniform d P ->
  ((2 <= length P)%nat ->
   exists out g', Src.crossing_over g P r = Ok (out, g') /\ length out = length P /\
     forall i x, nth_error P i = Some x ->
       exists dn, chose_closest_tensor x (src_others P i) = Ok dn /\
         nth_error out i = Some (torch_where (lt_mask (draws g (i * d) d) r) dn x)) /\
  (has_other P ->
   exists out g', Idkit.crossing_over g P r = Ok (out, g') /\ length out = length P /\
     forall i x, nth_error P i = Some x ->
       exists dn, chose_closest_tensor x (idkit_others x P) = Ok dn /\
         nth_error out i = Some (torch_where (lt_mask (draws g (i * d) d) r) dn x)).
Proof.
  intros Hu. split.
  - intros Hlen.
    destruct (Src_crossing_loop_ok P r Hlen P 0 (zeros_like P) g eq_refl) as (out & g' & H).
    exists out, g'. split; [exact H|]. exact (Src_crossing_over_spec P r d g g' out Hu H).
  - intros Hother.
    destruct (Idkit_crossing_loop_ok P r Hother P 0 (zeros_like P) g eq_refl) as (out & g' & H).
    exists out, g'. split; [exact H|]. exact (Idkit_crossing_over_spec P r d g g' out Hu H).
Qed.

Lemma crossing_over_from_snapshot_witness :
  uniform 1 [[0]; [1]; [5]] /\ (2 <= length [[0]; [1]; [5]])%nat /\ has_other [[0]; [1]; [5]] /\
  exists out g', Src.crossing_over gen_half [[0]; [1]; [5]] (3 # 4) = Ok (out, g') /\
    length out = 3%nat /\
    forall i x, nth_error [[0]; [1]; [5]] i = Some x ->
      exists dn, chose_closest_tensor x (src_others [[0]; [1]; [5]] i) = Ok dn /\
        nth_error out i = Some (torch_where (lt_mask (draws gen_half (i * 1) 1) (3 # 4)) dn x).
Proof.
  assert (Hu : uniform 1 [[0]; [1]; [5]]) by repeat constructor.
  assert (Hl : (2 <= length [[0]; [1]; [5]])%nat) by (simpl; lia).
  assert (Ho : has_other [[0]; [1]; [5]]).
  { intros x Hx. simpl in Hx.
    destruct Hx as [<-|[<-|[<-|[]]]]; [exists [1]|exists [0]|exists [0]];
      (split; [simpl; auto|reflexivity]). }
  split; [exact Hu|split; [exact Hl|split; [exact Ho|]]].
  exact (proj1 (crossing_over_from_snapshot [[0]; [1]; [5]] (3 # 4) 1 gen_half Hu) Hl).
Defined.

(** C5 (counterexample): on the population [[0]; [0]] of two equal
    members, the idkit [crossing_over] fails, because the candidates of each
    member, built by value, are empty. *)
Lemma crossing_over_twins_fail : ~ cross_same_size.
Proof.
  intros H.
  assert (Hu : uniform 1 pop_twins) by repeat constructor.
  assert (Hl : (2 <= length pop_twins)%nat) by (simpl; lia).
  destruct (H gen_half pop_twins (1 # 2) 1%nat Hu Hl) as (out & g' & Hc & _).
  vm_compute in Hc. discriminate Hc.
Qed.

(** C6: with uniform draws in [0, 1), [crossing_over] at rate 0 returns its
    input unchanged, and at rate 1 returns, for every member, the donor
    closest to it. The src copy does so for every population of at least 2
    members, the idkit copy for every population where each member differs
    from some member. *)
Theorem crossing_over_rate_0_1 (P : pop) (d : nat) (g : gen) :
  (forall k, 0 <= unif g k < 1) -> (2 <= length P)%nat -> uniform d P ->
  ((exists g', Src.crossing_over g P 0 = Ok (P, g')) /\
   (exists out g', Src.crossing_over g P 1 = Ok (out, g') /\ length out = length P /\
      forall i x, nth_error P i = Some x ->
        exists dn, chose_closest_tensor x (src_others P i) = Ok dn /\ nth_error out i = Some dn)) /\
  (has_other P ->
   (exists g', Idkit.crossing_over g P 0 = Ok (P, g')) /\
   (exists out g', Idkit.crossing_over g P 1 = Ok (out, g') /\ length out = length P /\
      forall i x, nth_error P i = Some x ->
        exists dn, chose_closest_tensor x (idkit_others x P) = Ok dn /\ nth_error out i = Some dn)).
Proof.
  intros Hu Hlen Hunif.
  assert (HxP : forall i x, nth_error P i = Some x -> length x = d)
    by (intros i x Hx; apply (uniform_In d P); [exact Hunif|eapply nth_error_In; exact Hx]).
  split; [split|intros Hother; split].
  - destruct (Src_crossing_loop_ok P 0 Hlen P 0 (zeros_like P) g eq_refl) as (out & g' & H).
    exists g'. change (Src.crossing_over g P 0 = Ok (out, g')) in H.
    destruct (Src_crossing_over_spec P 0 d g g' out Hunif H) as [Hl Hout].
    replace P with out at 2; [exact H|].
    apply nth_error_ext_len; [exact Hl|]. intros i x Hx.
    destruct (Hout i x Hx) as (dn & Hd & Ho). rewrite Ho. f_equal.
    apply where_rate_0; [exact Hu| |exact (HxP i x Hx)].
    apply (uniform_In d P); [exact Hunif|]. apply (In_src_others P i).
    eapply chose_closest_tensor_In. exact Hd.
  - destruct (Src_crossing_loop_ok P 1 Hlen P 0 (zeros_like P) g eq_refl) as (out & g' & H).
    change (Src.crossing_over g P 1 = Ok (out, g')) in H.
    exists out, g'. split; [exact H|].
    destruct (Src_crossing_over_spec P 1 d g g' out Hunif H) as [Hl Hout].
    split; [exact Hl|]. intros i x Hx.
    destruct (Hout i x Hx) as (dn & Hd & Ho). exists dn. split; [exact Hd|].
    rewrite Ho. f_equal.
    apply where_rate_1; [exact Hu| |exact (HxP i x Hx)].
    apply (uniform_In d P); [exact Hunif|]. apply (In_src_others P i).
    eapply chose_closest_tensor_In. exact Hd.
  - destruct (Idkit_crossing_loop_ok P 0 Hother P 0 (zeros_like P) g eq_refl) as (out & g' & H).
    exists g'. change (Idkit.crossing_over g P 0 = Ok (out, g')) in H.
    destruct (Idkit_crossing_over_spec P 0 d g g' out Hunif H) as [Hl Hout].
    replace P with out at 2; [exact H|].
    apply nth_error_ext_len; [exact Hl|]. intros i x Hx.
    destruct (Hout i x Hx) as (dn & Hd & Ho). rewrite Ho. f_equal.
    apply where_rate_0; [exact Hu| |exact (HxP i x Hx)].
    apply (uniform_In d P); [exact Hunif|].
    apply chose_closest_tensor_In in Hd. rewrite idkit_others_filter in Hd.
    apply filter_In in Hd. apply Hd.
  - destruct (Idkit_crossing_loop_ok P 1 Hother P 0 (zeros_like P) g eq_refl) as (out & g' & H).
    change (Idkit.crossing_over g P 1 = Ok (out, g')) in H.
    exists out, g'. split; [exact H|].
    destruct (Idkit_crossing_over_spec P 1 d g g' out Hunif H) as [Hl Hout].
    split; [exact Hl|]. intros i x Hx.
    destruct (Hout i x Hx) as (dn & Hd & Ho). exists dn. split; [exact Hd|].
    rewrite Ho. f_equal.
    apply where_rate_1; [exact Hu| |exact (HxP i x Hx)].
    apply (uniform_In d P); [exact Hunif|].
    apply chose_closest_tensor_In in Hd. rewrite idkit_others_filter in Hd.
    apply filter_In in Hd. apply Hd.
Qed.

Lemma crossing_over_rate_0_1_witness :
  (exists g', Src.crossing_over gen_half [[0]; [1]; [5]] 0 = Ok ([[0]; [1]; [5]], g')) /\
  (exists g', Idkit.crossing_over gen_half [[0]; [1]; [5]] 0 = Ok ([[0]; [1]; [5]], g')).
Proof.
  assert (Hu : forall k, 0 <= unif gen_half k < 1)
    by (intros k; simpl; split; unfold Qle, Qlt; simpl; lia).
  assert (Hl : (2 <= length [[0]; [1]; [5]])%nat) by (simpl; lia).
  assert (Hn : uniform 1 [[0]; [1]; [5]]) by repeat constructor.
  assert (Ho : has_other [[0]; [1]; [5]]).
  { intros x Hx. simpl in Hx.
    destruct Hx as [<-|[<-|[<-|[]]]]; [exists [1]|exists [0]|exists [0]];
      (split; [simpl; auto|reflexivity]). }
  destruct (crossing_over_rate_0_1 [[0]; [1]; [5]] 1 gen_half Hu Hl Hn) as [Hs Hi].
  split; [exact (proj1 Hs)|exact (proj1 (Hi Ho))].
Defined.

(** C6 (counterexample): at rate 0, on the population [[0]; [0]] of two
    equal members, the idkit [crossing_over] fails instead of returning its
    input. *)
Lemma crossing_over_rate_0_twins_fail : ~ cross_rate_0_identity.
Proof.
  intros H.
  assert (Hg : forall k, 0 <= unif gen_half k < 1)
    by (intros k; simpl; split; unfold Qle, Qlt; simpl; lia).
  assert (Hu : uniform 1 pop_twins) by repeat constructor.
  assert (Hl : (2 <= length pop_twins)%nat) by (simpl; lia).
  destruct (H gen_half pop_twins 1%nat Hg Hl Hu) as (g' & Hc).
  vm_compute in Hc. discriminate Hc.
Qed.

(** C7 (counterexample): on the empty population [crossing_over] returns
    the empty population. *)
Lemma crossing_over_empty_no_error : ~ cross_small_fails.
Proof.
  intros H. destruct (H gen_half [] 0 ltac:(simpl; lia)) as [e He].
  discriminate He.
Qed.

(** C7 (amended): on a one-member population both copies of
    [crossing_over] fail (the donor search runs [argmin] over an empty
    candidate set); on the empty population both return the empty
    population. *)
Theorem crossing_over_small (g : gen) (r : Q) :
  (forall x : vec,
     Idkit.crossing_over g [x] r = Err (RuntimeError argmin_empty_msg) /\
     Src.crossing_over g [x] r = Err (RuntimeError argmin_empty_msg)) /\
  Idkit.crossing_over g [] r = Ok ([], g) /\ Src.crossing_over g [] r = Ok ([], g).
Proof.
  split; [|split; reflexivity].
  intros x. split; [|reflexivity].
  unfold Idkit.crossing_over. simpl. unfold Idkit.is_not_this_tensor. simpl.
  rewrite torch_equal_refl. reflexivity.
Qed.

(** C10: in the idkit [crossing_over] the donor candidates of [x] are the
    members not equal in value to [x]: two equal members never are
    candidates of each other, and when all members are equal the search
    has no candidate and the call fails, whatever the population size. *)
Theorem idkit_candidates_by_value (P : pop) :
  (forall x, idkit_others x P = filter (fun t => negb (torch_equal x t)) P) /\
  (forall x y, torch_equal x y = true ->
     ~ In y (idkit_others x P) /\ ~ In x (idkit_others y P)) /\
  (forall g r, (2 <= length P)%nat ->
     (forall x y, In x P -> In y P -> torch_equal x y = true) ->
     Idkit.crossing_over g P r = Err (RuntimeError argmin_empty_msg)).
Proof.
  split; [exact (fun x => idkit_others_filter x P)|split].
  - intros x y Hxy. rewrite !idkit_others_filter, !filter_In.
    rewrite Hxy, torch_equal_sym, Hxy. simpl. split; intros [_ H]; discriminate.
  - intros g r Hlen Heq. destruct P as [|x P']; [simpl in Hlen; lia|].
    unfold Idkit.crossing_over. cbn [Idkit.crossing_loop].
    assert (Hnil : mask_select (x :: P') (Idkit.is_not_this_tensor x (x :: P')) = []).
    { fold (idkit_others x (x :: P')). rewrite idkit_others_filter.
      apply filter_all_false. intros t Ht.
      rewrite (Heq x t (or_introl eq_refl) Ht). reflexivity. }
    rewrite Hnil. reflexivity.
Qed.

Lemma idkit_candidates_by_value_witness :
  idkit_others [0] [[0]; [0]; [1]] = [[1]] /\
  Idkit.crossing_over gen_half [[0]; [0]] (1 # 2) = Err (RuntimeError argmin_empty_msg).
Proof.
  split; [reflexivity|].
  apply (proj2 (proj2 (idkit_candidates_by_value [[0]; [0]]))).
  - simpl. lia.
  - intros x y Hx Hy. simpl in Hx, Hy.
    destruct Hx as [<-|[<-|[]]]; destruct Hy as [<-|[<-|[]]]; reflexivity.
Defined.

(** ** The generation pipeline *)

(** C2: [create_new_images] runs [crossing_over] twice on the same encoded
    3-member population (the second pass only continues the generator of
    the first), concatenates the two 3-member results with the first
    pass's members first, culls the 6 candidates to 5 by removing one of
    them, and decodes these 5 in order. *)
Theorem create_new_images_pipeline (image : Type) (enc : string -> vec)
    (dec : vec -> image) (g : gen) (paths : list string) :
  length paths = 3%nat ->
  (forall c1 g1 c2 g2,
     Idkit.crossing_over g (Idkit.flatten_img enc paths) (1 # 2) = Ok (c1, g1) ->
     Idkit.crossing_over g1 (Idkit.flatten_img enc paths) (1 # 2) = Ok (c2, g2) ->
     length c1 = 3%nat /\ length c2 = 3%nat /\
     exists k, (k < 6)%nat /\ length (remove_nth k (c1 ++ c2)) = 5%nat /\
       Idkit.create_new_images image enc dec g paths
       = Ok (combine (seq 0 5) (map dec (remove_nth k (c1 ++ c2))), g2)) /\
  (forall tensor_std c1 g1 c2 g2,
     Src.crossing_over g (Src.flatten_img enc paths) (2 # 5) = Ok (c1, g1) ->
     Src.crossing_over g1 (Src.flatten_img enc paths) (2 # 5) = Ok (c2, g2) ->
     length c1 = 3%nat /\ length c2 = 3%nat /\
     exists k, (k < 6)%nat /\ length (remove_nth k (c1 ++ c2)) = 5%nat /\
       Src.create_new_images tensor_std image enc dec g paths
       = Ok (combine (seq 0 5) (map dec (remove_nth k (c1 ++ c2))), g2)).
Proof.
  intros Hp. split.
  - intros c1 g1 c2 g2 H1 H2.
    pose proof (Idkit_crossing_loop_length _ _ _ _ _ _ _ _ H1) as L1.
    pose proof (Idkit_crossing_loop_length _ _ _ _ _ _ _ _ H2) as L2.
    unfold zeros_like, Idkit.flatten_img in L1, L2. rewrite !length_map, Hp in L1, L2.
    assert (Hne : c1 ++ c2 <> []).
    { intros E. apply (f_equal (@length vec)) in E. rewrite length_app in E. simpl in E. lia. }
    destruct (Idkit_remove_worst_first_max (c1 ++ c2) Hne) as (k & Hk & Hr).
    assert (Hk6 : (k < 6)%nat).
    { apply first_max_lt in Hk. rewrite length_map, length_app in Hk. lia. }
    assert (H5 : length (remove_nth k (c1 ++ c2)) = 5%nat).
    { rewrite length_remove_nth; rewrite length_app; lia. }
    split; [exact L1|split; [exact L2|]]. exists k.
    split; [exact Hk6|split; [exact H5|]].
    unfold Idkit.create_new_images. rewrite H1. simpl. rewrite H2. simpl.
    rewrite Hr. simpl. unfold Idkit.deflatten_img. rewrite length_map, H5. reflexivity.
  - intros tensor_std c1 g1 c2 g2 H1 H2.
    pose proof (Src_crossing_loop_length _ _ _ _ _ _ _ _ H1) as L1.
    pose proof (Src_crossing_loop_length _ _ _ _ _ _ _ _ H2) as L2.
    unfold zeros_like, Src.flatten_img in L1, L2. rewrite !length_map, Hp in L1, L2.
    assert (Hne : c1 ++ c2 <> []).
    { intros E. apply (f_equal (@length vec)) in E. rewrite length_app in E. simpl in E. lia. }
    destruct (Src_remove_worst_first_max tensor_std (c1 ++ c2) Hne) as (k & Hk & Hr).
    assert (Hk6 : (k < 6)%nat).
    { apply first_max_lt in Hk. rewrite length_map, length_app in Hk. lia. }
    assert (H5 : length (remove_nth k (c1 ++ c2)) = 5%nat).
    { rewrite length_remove_nth; rewrite length_app; lia. }
    split; [exact L1|split; [exact L2|]]. exists k.
    split; [exact Hk6|split; [exact H5|]].
    unfold Src.create_new_images. rewrite H1. simpl. rewrite H2. simpl.
    rewrite Hr. simpl. unfold Src.deflatten_img. rewrite length_map, H5. reflexivity.
Qed.

Lemma create_new_images_pipeline_witness :
  exists k, (k < 6)%nat /\
    length (remove_nth k ([[2]; [2]; [2]] ++ [[1]; [1]; [4]])) = 5%nat /\
    Idkit.create_new_images vec enc_len (fun v => v) gen_alt paths3
    = Ok (combine (seq 0 5) (map (fun v => v) (remove_nth k ([[2]; [2]; [2]] ++ [[1]; [1]; [4]]))),
          mkGen (unif gen_alt) (gauss gen_alt) 6).
Proof.
  destruct (create_new_images_pipeline vec enc_len (fun v => v) gen_alt paths3 eq_refl)
    as [Hi _].
  destruct (Hi [[2]; [2]; [2]] (mkGen (unif gen_alt) (gauss gen_alt) 3)
               [[1]; [1]; [4]] (mkGen (unif gen_alt) (gauss gen_alt) 6))
    as (_ & _ & H).
  - vm_compute. reflexivity.
  - vm_compute. reflexivity.
  - exact H.
Defined.

(** ** Mutation *)

(** C3 (evaluation at the failing input): on a rank-3 input of one member,
    mode [reconstruct] with the unknown scale ["blend"] returns a copy of
    the input in both copies of [mutate_img], where the rank-2 branch and
    the rank-3 [add] branch raise [ValueError] for the same scale. *)
Theorem mutate_img_reconstruct_unknown_scale (tensor_std : vec -> Q) (g : gen)
    (rate noise : Q) (x : vec) :
  Idkit.mutate_img tensor_std [PyTensor (T3 [x])] 0 g rate "reconstruct" "blend"
    = Ok (1%nat, [PyTensor (T3 [x]); PyTensor (T3 [x])], g) /\
  Src.mutate_img tensor_std [PyTensor (T3 [x])] 0 g rate noise "reconstruct" "blend"
    = Ok (1%nat, [PyTensor (T3 [x]); PyTensor (T3 [x])], g) /\
  Idkit.mutate_img tensor_std [PyTensor (T2 x)] 0 g rate "reconstruct" "blend"
    = Err (ValueError (Idkit.scale_msg "blend")) /\
  Idkit.mutate_img tensor_std [PyTensor (T3 [x])] 0 g rate "add" "blend"
    = Err (ValueError (Idkit.scale_msg "blend")).
Proof.
  repeat split; reflexivity.
Qed.

(** C9 (counterexample): adding noise to all of the rank-2 tensor [[0]]
    with a Gaussian draw of 1 leaves [[1]] in the caller's tensor. *)
Lemma mutate_img_overwrites_input : ~ mutate_keeps_input.
Proof.
  intros H.
  destruct (H (fun _ => 0) [PyTensor (T2 [0])] 0%nat gen_half (1 # 2) "add"%string
              "total"%string [0] 0%nat [PyTensor (T2 [0 + 1])] (advance gen_half 1))
    as (v' & Hv & Heq).
  - reflexivity.
  - left. reflexivity.
  - right. reflexivity.
  - reflexivity.
  - simpl in Hv. injection Hv as <-. discriminate Heq.
Qed.

(** C9 (amended): when [mutate_img] succeeds on the reference [l], on a
    rank-3 input and on a rank-2 input in mode [reconstruct], scale
    [total], the caller's tensor still holds its values and the result is a
    new tensor; on a rank-2 input in the other valid modes the result is
    the caller's tensor itself, overwritten in place. Both copies behave
    so. *)
Theorem mutate_img_heap_effect (tensor_std : vec -> Q) (h : heap) (l : nat)
    (g : gen) (rate noise : Q) (mode scale : string) :
  (forall l' h' g', Idkit.mutate_img tensor_std h l g rate mode scale = Ok (l', h', g') ->
     mutate_effect h l mode scale l' h') /\
  (forall l' h' g', Src.mutate_img tensor_std h l g rate noise mode scale = Ok (l', h', g') ->
     mutate_effect h l mode scale l' h').
Proof.
  split; intros l' h' g' H; unfold Idkit.mutate_img, Src.mutate_img in H;
    unfold mutate_effect;
    destruct (nth_error h l) as [[[v|p|k]|]|] eqn:Hl; try discriminate.
  - cbv zeta in H.
    destruct (String.eqb mode "add") eqn:Em.
    + apply String.eqb_eq in Em. subst mode.
      destruct (String.eqb scale "partial") eqn:Ep.
      * apply String.eqb_eq in Ep. subst scale. simpl in H.
        injection H as <- <- _. simpl. effect_solve Hl.
      * destruct (String.eqb scale "total") eqn:Et; [|discriminate].
        apply String.eqb_eq in Et. subst scale. simpl in H.
        injection H as <- <- _. simpl. effect_solve Hl.
    + destruct (String.eqb mode "reconstruct") eqn:Er; [|discriminate].
      apply String.eqb_eq in Er. subst mode.
      destruct (String.eqb scale "partial") eqn:Ep.
      * apply String.eqb_eq in Ep. subst scale. simpl in H.
        injection H as <- <- _. simpl. effect_solve Hl.
      * destruct (String.eqb scale "total") eqn:Et; [|discriminate].
        apply String.eqb_eq in Et. subst scale. simpl in H.
        injection H as <- <- _. simpl. effect_solve Hl.
  - destruct (Idkit.mutate_loop _ _ _ _ _ _ _ _) as [[gt g2]|e]; simpl in H; [|discriminate].
    injection H as <- <- _. effect_solve Hl.
  - cbv zeta in H.
    destruct (String.eqb mode "add") eqn:Em.
    + apply String.eqb_eq in Em. subst mode.
      destruct (String.eqb scale "partial") eqn:Ep.
      * apply String.eqb_eq in Ep. subst scale. simpl in H.
        injection H as <- <- _. simpl. effect_solve Hl.
      * destruct (String.eqb scale "total") eqn:Et; [|discriminate].
        apply String.eqb_eq in Et. subst scale. simpl in H.
        injection H as <- <- _. simpl. effect_solve Hl.
    + destruct (String.eqb mode "reconstruct") eqn:Er; [|discriminate].
      apply String.eqb_eq in Er. subst mode.
      destruct (String.eqb scale "partial") eqn:Ep.
      * apply String.eqb_eq in Ep. subst scale. simpl in H.
        injection H as <- <- _. simpl. effect_solve Hl.
      * destruct (String.eqb scale "total") eqn:Et; [|discriminate].
        apply String.eqb_eq in Et. subst scale. simpl in H.
        injection H as <- <- _. simpl. effect_solve Hl.
  - destruct (Src.mutate_loop _ _ _ _ _ _ _ _ _) as [[gt g2]|e]; simpl in H; [|discriminate].
    injection H as <- <- _. effect_solve Hl.
Qed.

Lemma mutate_img_heap_effect_witness :
  mutate_effect [PyTensor (T2 [0])] 0 "add" "total" 0 [PyTensor (T2 [0 + 1])] /\
  mutate_effect [PyTensor (T3 [[0]])] 0 "add" "total" 1
    [PyTensor (T3 [[0]]); PyTensor (T3 [[0 + 1 * 1]])].
Proof.
  split.
  - eapply (proj1 (mutate_img_heap_effect (fun _ => 0) [PyTensor (T2 [0])] 0 gen_half
                     (1 # 2) 1 "add" "total")).
    reflexivity.
  - eapply (proj2 (mutate_img_heap_effect (fun _ => 0) [PyTensor (T3 [[0]])] 0 gen_half
                     (1 # 2) 1 "add" "total")).
    reflexivity.
Defined.

(** * Further properties of the code *)

(** [chose_closest_tensor] fails with [torch.argmin]'s error on an empty
    candidate set, and otherwise returns one of the candidates. *)
Theorem chose_closest_tensor_member (x : vec) (cs : pop) :
  (cs = [] -> chose_closest_tensor x cs = Err (RuntimeError argmin_empty_msg)) /\
  (cs <> [] -> exists c, chose_closest_tensor x cs = Ok c /\ In c cs).
Proof.
  split.
  - intros ->. reflexivity.
  - intros Hne. destruct (chose_closest_tensor_ok x cs Hne) as [c Hc].
    exists c. split; [exact Hc|]. exact (chose_closest_tensor_In x cs c Hc).
Qed.

Lemma chose_closest_tensor_member_witness :
  chose_closest_tensor [0] [] = Err (RuntimeError argmin_empty_msg) /\
  exists c, chose_closest_tensor [0] [[1]; [3]] = Ok c /\ In c [[1]; [3]].
Proof.
  split.
  - exact (proj1 (chose_closest_tensor_member [0] []) eq_refl).
  - apply (proj2 (chose_closest_tensor_member [0] [[1]; [3]])). discriminate.
Defined.

(** The src [remove_worst_tensor] raises [torch.argmax]'s error on an empty
    population, returns the empty population for a single member, and
    removes exactly one member of a population of at least 2. *)
Theorem Src_remove_worst_tensor_edges (tensor_std : vec -> Q) :
  Src.remove_worst_tensor tensor_std [] = Err (RuntimeError argmax_empty_msg) /\
  (forall x, Src.remove_worst_tensor tensor_std [x] = Ok []) /\
  (forall p, (2 <= length p)%nat ->
     exists k, (k < length p)%nat /\ Src.remove_worst_tensor tensor_std p = Ok (remove_nth k p) /\
       length (remove_nth k p) = (length p - 1)%nat).
Proof.
  split; [reflexivity|split; [intros x; reflexivity|]].
  intros p Hp.
  destruct (Src_remove_worst_first_max tensor_std p) as (k & Hk & Hr).
  { intros ->. simpl in Hp. lia. }
  apply first_max_lt in Hk. rewrite length_map in Hk.
  exists k. split; [exact Hk|split; [exact Hr|]]. apply length_remove_nth. exact Hk.
Qed.

Lemma Src_remove_worst_tensor_edges_witness :
  exists k, (k < 3)%nat /\
    Src.remove_worst_tensor (fun v => hd 0 v) [[1]; [5]; [2]] = Ok (remove_nth k [[1]; [5]; [2]]) /\
    length (remove_nth k [[1]; [5]; [2]]) = 2%nat.
Proof.
  apply (proj2 (proj2 (Src_remove_worst_tensor_edges (fun v => hd 0 v))) [[1]; [5]; [2]]).
  simpl. lia.
Defined.

(** Both copies of [crossing_over], on a population of one shape, return
    a population of the same shape whose every component is the component,
    at the same position, of the member itself or of its donor: crossing
    never produces a value absent from the two parents. *)
Theorem crossing_over_values_from_parents (P : pop) (r : Q) (d : nat) (g g' : gen) (out : pop) :
  uniform d P ->
  (Idkit.crossing_over g P r = Ok (out, g') ->
   uniform d out /\
   forall i x y j c, nth_error P i = Some x -> nth_error out i = Some y -> nth_error y j = Some c ->
     exists dn, chose_closest_tensor x (idkit_others x P) = Ok dn /\
       (nth_error x j = Some c \/ nth_error dn j = Some c)) /\
  (Src.crossing_over g P r = Ok (out, g') ->
   uniform d out /\
   forall i x y j c, nth_error P i = Some x -> nth_error out i = Some y -> nth_error y j = Some c ->
     exists dn, chose_closest_tensor x (src_others P i) = Ok dn /\
       (nth_error x j = Some c \/ nth_error dn j = Some c)).
Proof.
  intros Hu.
  assert (HxP : forall i x, nth_error P i = Some x -> length x = d)
    by (intros i x Hx; apply (uniform_In d P); [exact Hu|eapply nth_error_In; exact Hx]).
  split; intros H.
  - destruct (Idkit_crossing_over_spec P r d g g' out Hu H) as [Hl Hout].
    assert (Hdn : forall x dn, chose_closest_tensor x (idkit_others x P) = Ok dn -> length dn = d).
    { intros x dn Hd. apply chose_closest_tensor_In in Hd.
      rewrite idkit_others_filter, filter_In in Hd. apply (uniform_In d P); [exact Hu|apply Hd]. }
    split.
    + apply uniform_nth. intros i y Hy.
      assert (Hi : (i < length P)%nat) by (rewrite <- Hl; apply nth_error_Some; congruence).
      destruct (nth_error P i) as [x|] eqn:Hx; [|apply nth_error_None in Hx; lia].
      destruct (Hout i x Hx) as (dn & Hd & Ho). rewrite Ho in Hy. injection Hy as <-.
      apply torch_where_length;
        [apply length_lt_mask_draws|exact (Hdn x dn Hd)|exact (HxP i x Hx)].
    + intros i x y j c Hx Hy Hc.
      destruct (Hout i x Hx) as (dn & Hd & Ho). rewrite Ho in Hy. injection Hy as <-.
      exists dn. split; [exact Hd|].
      apply torch_where_coord in Hc. tauto.
  - destruct (Src_crossing_over_spec P r d g g' out Hu H) as [Hl Hout].
    assert (Hdn : forall x i dn, chose_closest_tensor x (src_others P i) = Ok dn -> length dn = d).
    { intros x i dn Hd. apply chose_closest_tensor_In, In_src_others in Hd.
      apply (uniform_In d P); [exact Hu|exact Hd]. }
    split.
    + apply uniform_nth. intros i y Hy.
      assert (Hi : (i < length P)%nat) by (rewrite <- Hl; apply nth_error_Some; congruence).
      destruct (nth_error P i) as [x|] eqn:Hx; [|apply nth_error_None in Hx; lia].
      destruct (Hout i x Hx) as (dn & Hd & Ho). rewrite Ho in Hy. injection Hy as <-.
      apply torch_where_length;
        [apply length_lt_mask_draws|exact (Hdn x i dn Hd)|exact (HxP i x Hx)].
    + intros i x y j c Hx Hy Hc.
      destruct (Hout i x Hx) as (dn & Hd & Ho). rewrite Ho in Hy. injection Hy as <-.
      exists dn. split; [exact Hd|].
      apply torch_where_coord in Hc. tauto.
Qed.

Lemma crossing_over_values_from_parents_witness :
  uniform 1 [[0]; [1]; [5]] /\
  Src.crossing_over gen_alt [[0]; [1]; [5]] (1 # 2) = Ok ([[1]; [1]; [1]], advance gen_alt 3) /\
  uniform 1 [[1]; [1]; [1]].
Proof.
  assert (Hu : uniform 1 [[0]; [1]; [5]]) by repeat constructor.
  assert (H : Src.crossing_over gen_alt [[0]; [1]; [5]] (1 # 2) = Ok ([[1]; [1]; [1]], advance gen_alt 3))
    by (vm_compute; reflexivity).
  split; [exact Hu|split; [exact H|]].
  exact (proj1 (proj2 (crossing_over_values_from_parents [[0]; [1]; [5]] (1 # 2) 1 gen_alt
                          (advance gen_alt 3) [[1]; [1]; [1]] Hu) H)).
Defined.



(** The src [crossing_over] on a population of [n >= 2] copies of one
    member succeeds and returns the population unchanged, whatever the
    rate, after [n] times the member's size uniform draws. *)
Theorem Src_crossing_over_identical (x : vec) (n : nat) (r : Q) (g : gen) :
  (2 <= n)%nat ->
  Src.crossing_over g (repeat x n) r = Ok (repeat x n, advance g (n * length x)).
Proof.
  exact (Src_crossing_over_repeat x n r g).
Qed.

Lemma Src_crossing_over_identical_witness :
  Src.crossing_over gen_alt [[1; 2]; [1; 2]; [1; 2]] (1 # 2)
    = Ok ([[1; 2]; [1; 2]; [1; 2]], advance gen_alt (3 * 2)).
Proof.
  exact (Src_crossing_over_identical [1; 2] 3 (1 # 2) gen_alt ltac:(lia)).
Defined.

(** [mutate_img] errors, in both copies: a tensor of rank other than 2 or
    3 raises [TypeError] on the dimension, a non-tensor raises [TypeError]
    on the type; on a rank-2 tensor or a non-empty rank-3 tensor, a mode
    other than [add] and [reconstruct] raises [ValueError] naming the mode,
    and an unknown scale raises [ValueError] naming the scale in every
    rank-2 mode and in the rank-3 [add] mode. *)
Theorem mutate_img_errors (tensor_std : vec -> Q) (h : heap) (l : nat) (g : gen)
    (rate noise : Q) (mode scale : string) :
  (forall k, nth_error h l = Some (PyTensor (TRank k)) ->
     Idkit.mutate_img tensor_std h l g rate mode scale = Err (TypeError dim_msg) /\
     Src.mutate_img tensor_std h l g rate noise mode scale = Err (TypeError dim_msg)) /\
  ((nth_error h l = None \/ nth_error h l = Some PyOther) ->
     Idkit.mutate_img tensor_std h l g rate mode scale = Err (TypeError type_msg) /\
     Src.mutate_img tensor_std h l g rate noise mode scale = Err (TypeError type_msg)) /\
  (mode <> "add"%string -> mode <> "reconstruct"%string ->
   forall v x p, (nth_error h l = Some (PyTensor (T2 v)) \/
                  nth_error h l = Some (PyTensor (T3 (x :: p)))) ->
     Idkit.mutate_img tensor_std h l g rate mode scale = Err (ValueError (Idkit.mode_msg mode)) /\
     Src.mutate_img tensor_std h l g rate noise mode scale = Err (ValueError (Src.mode_msg mode))) /\
  (scale <> "partial"%string -> scale <> "total"%string ->
   forall v x p, ((nth_error h l = Some (PyTensor (T2 v)) /\
                   (mode = "add"%string \/ mode = "reconstruct"%string)) \/
                  (nth_error h l = Some (PyTensor (T3 (x :: p))) /\ mode = "add"%string)) ->
     Idkit.mutate_img tensor_std h l g rate mode scale = Err (ValueError (Idkit.scale_msg scale)) /\
     Src.mutate_img tensor_std h l g rate noise mode scale = Err (ValueError (Src.scale_msg scale))).
Proof.
  unfold Idkit.mutate_img, Src.mutate_img.
  split; [intros k Hk; rewrite Hk; split; reflexivity|].
  split; [intros [Hn|Hn]; rewrite Hn; split; reflexivity|].
  split.
  - intros Ha Hr v x p Hh.
    apply String.eqb_neq in Ha, Hr.
    destruct Hh as [Hh|Hh]; rewrite Hh; cbv zeta.
    + rewrite Ha, Hr. split; reflexivity.
    + simpl. unfold Idkit.mutate_member, Src.mutate_member. rewrite Ha, Hr. split; reflexivity.
  - intros Hp Ht v x p Hh.
    apply String.eqb_neq in Hp, Ht.
    destruct Hh as [[Hh [->| ->]]|[Hh ->]]; rewrite Hh; cbv zeta; simpl;
      try (rewrite Hp, Ht; split; reflexivity).
    unfold Idkit.mutate_member, Src.mutate_member. simpl. rewrite Hp, Ht. split; reflexivity.
Qed.

Lemma mutate_img_errors_witness :
  Idkit.mutate_img (fun _ => 0) [PyTensor (T2 [0])] 0 gen_half (1 # 2) "blend" "total"
    = Err (ValueError (Idkit.mode_msg "blend")) /\
  Src.mutate_img (fun _ => 0) [PyTensor (T3 [[0]])] 0 gen_half (1 # 2) 1 "add" "blend"
    = Err (ValueError (Src.scale_msg "blend")).
Proof.
  destruct (mutate_img_errors (fun _ => 0) [PyTensor (T2 [0])] 0 gen_half (1 # 2) 1
              "blend" "total") as (_ & _ & Hm & _).
  destruct (mutate_img_errors (fun _ => 0) [PyTensor (T3 [[0]])] 0 gen_half (1 # 2) 1
              "add" "blend") as (_ & _ & _ & Hs).
  split.
  - apply (Hm ltac:(discriminate) ltac:(discriminate) [0] [0] []). left. reflexivity.
  - apply (Hs ltac:(discriminate) ltac:(discriminate) [0] [0] []). right. split; reflexivity.
Defined.

(** A successful [mutate_img] returns a tensor of the input's shape, in
    both copies: a rank-2 result as long as the input, a rank-3 result
    with as many members as the input, each as long as the input member
    at the same index. *)
Theorem mutate_img_shape (tensor_std : vec -> Q) (h : heap) (l : nat) (g : gen)
    (rate noise : Q) (mode scale : string) :
  (forall l' h' g', Idkit.mutate_img tensor_std h l g rate mode scale = Ok (l', h', g') ->
     mutate_shape h l l' h') /\
  (forall l' h' g', Src.mutate_img tensor_std h l g rate noise mode scale = Ok (l', h', g') ->
     mutate_shape h l l' h').
Proof.
  split; intros l' h' g' H; unfold Idkit.mutate_img, Src.mutate_img in H;
    unfold mutate_shape;
    destruct (nth_error h l) as [[[v|p|k]|]|] eqn:Eh; try discriminate.
  - assert (Hl : (l < length h)%nat) by (apply nth_error_Some; congruence).
    cbv zeta in H.
    destruct (String.eqb mode "add"); [|destruct (String.eqb mode "reconstruct")];
      destruct (String.eqb scale "partial"); try destruct (String.eqb scale "total");
      simpl in H; try discriminate; injection H as <- <- _; eexists;
      (split; [first [apply nth_error_set_nth_eq; exact Hl | apply nth_error_app_length]
              | len_solve]).
  - destruct (Idkit.mutate_loop _ _ _ _ _ _ _ _) as [[gt g2]|e] eqn:Em;
      simpl in H; [|discriminate].
    injection H as <- <- _. exists gt. split; [apply nth_error_app_length|].
    assert (Hz : length (zeros_like p) = (0 + length p)%nat) by (unfold zeros_like; rewrite length_map; reflexivity).
    rewrite (Idkit_mutate_loop_shape tensor_std rate mode scale p 0 (zeros_like p) g gt g2 Hz Em).
    reflexivity.
  - assert (Hl : (l < length h)%nat) by (apply nth_error_Some; congruence).
    cbv zeta in H.
    destruct (String.eqb mode "add"); [|destruct (String.eqb mode "reconstruct")];
      destruct (String.eqb scale "partial"); try destruct (String.eqb scale "total");
      simpl in H; try discriminate; injection H as <- <- _; eexists;
      (split; [first [apply nth_error_set_nth_eq; exact Hl | apply nth_error_app_length]
              | len_solve]).
  - destruct (Src.mutate_loop _ _ _ _ _ _ _ _ _) as [[gt g2]|e] eqn:Em;
      simpl in H; [|discriminate].
    injection H as <- <- _. exists gt. split; [apply nth_error_app_length|].
    assert (Hz : length (zeros_like p) = (0 + length p)%nat) by (unfold zeros_like; rewrite length_map; reflexivity).
    rewrite (Src_mutate_loop_shape tensor_std rate noise mode scale p 0 (zeros_like p) g gt g2 Hz Em).
    reflexivity.
Qed.

Lemma mutate_img_shape_witness :
  mutate_shape [PyTensor (T3 [[0; 1]; [2; 3]])] 0 1
    [PyTensor (T3 [[0; 1]; [2; 3]]); PyTensor (T3 [[0 + 1; 1 + 1]; [2 + 1; 3 + 1]])].
Proof.
  eapply (proj1 (mutate_img_shape (fun _ => 0) [PyTensor (T3 [[0; 1]; [2; 3]])] 0 gen_half
                   (1 # 2) 1 "add" "total")).
  reflexivity.
Defined.

(** A partial mutation at rate 0 changes nothing, in both copies and both
    modes, when the uniform draws are never negative: on a rank-2 tensor
    the call returns the caller's tensor with the heap as it was; on a
    rank-3 tensor it returns a new tensor equal to the input. *)
Theorem mutate_img_partial_rate_0 (tensor_std : vec -> Q) (h : heap) (l : nat) (g : gen)
    (noise : Q) (mode : string) :
  (mode = "add"%string \/ mode = "reconstruct"%string) ->
  (forall k, 0 <= unif g k) ->
  (forall v, nth_error h l = Some (PyTensor (T2 v)) ->
     (exists g', Idkit.mutate_img tensor_std h l g 0 mode "partial" = Ok (l, h, g')) /\
     (exists g', Src.mutate_img tensor_std h l g 0 noise mode "partial" = Ok (l, h, g'))) /\
  (forall p, nth_error h l = Some (PyTensor (T3 p)) ->
     (exists g', Idkit.mutate_img tensor_std h l g 0 mode "partial"
                 = Ok (length h, h ++ [PyTensor (T3 p)], g')) /\
     (exists g', Src.mutate_img tensor_std h l g 0 noise mode "partial"
                 = Ok (length h, h ++ [PyTensor (T3 p)], g'))).
Proof.
  intros Hm Hu.
  assert (Hz : forall p : pop, length (zeros_like p) = (0 + length p)%nat)
    by (intros p; unfold zeros_like; rewrite length_map; reflexivity).
  split.
  - intros v Hv. unfold Idkit.mutate_img, Src.mutate_img. rewrite Hv. cbv zeta.
    destruct Hm as [-> | ->]; simpl.
    + rewrite !torch_where_all_false; try (apply lt_mask_nonneg_0; exact Hu); try len_solve.
      rewrite !(set_nth_same l _ h Hv). split; eexists; reflexivity.
    + rewrite !masked_assign_all_false by (apply lt_mask_nonneg_0; exact Hu).
      rewrite !(set_nth_same l _ h Hv). split; eexists; reflexivity.
  - intros p Hp. unfold Idkit.mutate_img, Src.mutate_img. rewrite Hp. split.
    + destruct (Idkit_mutate_loop_rate_0 tensor_std mode Hm p 0 (zeros_like p) g Hu (Hz p))
        as [g' E].
      rewrite E. simpl. eexists; reflexivity.
    + destruct (Src_mutate_loop_rate_0 tensor_std noise mode Hm p 0 (zeros_like p) g Hu (Hz p))
        as [g' E].
      rewrite E. simpl. eexists; reflexivity.
Qed.

Lemma mutate_img_partial_rate_0_witness :
  (exists g', Idkit.mutate_img (fun _ => 0) [PyTensor (T2 [3; 4])] 0 gen_half 0 "add" "partial"
              = Ok (0%nat, [PyTensor (T2 [3; 4])], g')) /\
  (exists g', Src.mutate_img (fun _ => 0) [PyTensor (T3 [[3]; [4]])] 0 gen_half 0 1
                "reconstruct" "partial"
              = Ok (1%nat, [PyTensor (T3 [[3]; [4]]); PyTensor (T3 [[3]; [4]])], g')).
Proof.
  assert (Hu : forall k, 0 <= unif gen_half k) by (intros k; unfold Qle; simpl; lia).
  split.
  - apply (proj1 (mutate_img_partial_rate_0 (fun _ => 0) [PyTensor (T2 [3; 4])] 0 gen_half 1
                    "add" (or_introl eq_refl) Hu) [3; 4] eq_refl).
  - apply (proj2 (mutate_img_partial_rate_0 (fun _ => 0) [PyTensor (T3 [[3]; [4]])] 0 gen_half 1
                    "reconstruct" (or_intror eq_refl) Hu) [[3]; [4]] eq_refl).
Defined.

(** [create_new_images] on three copies of one image path: the idkit copy
    fails, since the donor search of every member has no candidate; the
    src copy returns five copies of the decoded image. *)
Theorem create_new_images_same_image (image : Type) (enc : string -> vec)
    (dec : vec -> image) (g : gen) (s : string) :
  Idkit.create_new_images image enc dec g [s; s; s] = Err (RuntimeError argmin_empty_msg) /\
  forall tensor_std : vec -> Q,
    Src.create_new_images tensor_std image enc dec g [s; s; s]
    = Ok (combine (seq 0 5) (repeat (dec (enc s)) 5),
          advance g (3 * length (enc s) + 3 * length (enc s))).
Proof.
  split.
  - unfold Idkit.create_new_images, Idkit.crossing_over, Idkit.flatten_img.
    cbn [map Idkit.crossing_loop]. unfold Idkit.is_not_this_tensor. cbn [map].
    rewrite torch_equal_refl. reflexivity.
  - intros tensor_std. unfold Src.create_new_images, Src.flatten_img. cbv zeta.
    change (map enc [s; s; s]) with (repeat (enc s) 3).
    rewrite (Src_crossing_over_repeat (enc s) 3 (2 # 5) g ltac:(lia)). cbn [bind].
    rewrite (Src_crossing_over_repeat (enc s) 3 (2 # 5) _ ltac:(lia)). cbn [bind].
    rewrite advance_advance.
    destruct (Src_remove_worst_first_max tensor_std (repeat (enc s) 3 ++ repeat (enc s) 3))
      as (k & Hk & Hr); [discriminate|].
    apply first_max_lt in Hk. rewrite length_map in Hk.
    change (repeat (enc s) 3 ++ repeat (enc s) 3) with (repeat (enc s) 6) in *.
    rewrite Hr. cbn [bind]. rewrite remove_nth_repeat by exact Hk.
    reflexivity.
Qed.

(** In the src [crossing_over], a member equal in value to a member at
    another index finds a donor equal to itself, so it comes out equal in
    value to what it was, whatever the draws and the rate. *)
Theorem Src_crossing_over_duplicate_kept (P : pop) (r : Q) (d : nat) (g g' : gen) (out : pop)
    (i j : nat) (x y : vec) :
  uniform d P -> Src.crossing_over g P r = Ok (out, g') ->
  nth_error P i = Some x -> nth_error P j = Some y -> i <> j -> torch_equal x y = true ->
  exists z, nth_error out i = Some z /\ torch_equal z x = true.
Proof.
  intros Hu H Hx Hy Hij Hxy.
  destruct (Src_crossing_over_spec P r d g g' out Hu H) as [_ Hout].
  destruct (Hout i x Hx) as (dn & Hd & Ho).
  assert (HxP : length x = d) by (apply (uniform_In d P); [exact Hu|eapply nth_error_In; exact Hx]).
  destruct (chose_closest_tensor_equal x (src_others P i) y) as (dn' & Hd' & Hxd).
  - intros c Hc. apply In_src_others in Hc. rewrite HxP. apply (uniform_In d P); assumption.
  - exact (In_src_others_index P i j y Hij Hy).
  - exact Hxy.
  - rewrite Hd in Hd'. injection Hd' as <-.
    exists (torch_where (lt_mask (draws g (i * d) d) r) dn x). split; [exact Ho|].
    apply torch_where_equal.
    + exact Hxd.
    + rewrite length_lt_mask_draws. symmetry. exact HxP.
Qed.

Lemma Src_crossing_over_duplicate_kept_witness :
  Src.crossing_over gen_alt [[1]; [5]; [1]] (1 # 2)
    = Ok ([[1]; [5]; [1]], advance gen_alt 3) /\
  exists z, nth_error [[1]; [5]; [1]] 0 = Some z /\ torch_equal z [1] = true.
Proof.
  assert (Hu : uniform 1 [[1]; [5]; [1]]) by repeat constructor.
  assert (H : Src.crossing_over gen_alt [[1]; [5]; [1]] (1 # 2)
              = Ok ([[1]; [5]; [1]], advance gen_alt 3)) by (vm_compute; reflexivity).
  split; [exact H|].
  exact (Src_crossing_over_duplicate_kept [[1]; [5]; [1]] (1 # 2) 1 gen_alt (advance gen_alt 3)
           [[1]; [5]; [1]] 0 2 [1] [1] Hu H eq_refl eq_refl ltac:(lia) eq_refl).
Defined.
